(** * LearningGo: the tic-tac-toe board and the duplicate-line counter

    A shallow embedding of the two Go programs of the repository:

    - the board of the console tic-tac-toe game ([TicTacToeBoard],
      [NewTicTacToeBoard], [InBounds], [GetMark], [IsSpotEmpty],
      [IsGameOver], [PlaceMove]); its command-line loop is not modelled;
    - [chapter-1/dup.go] ([countLines] and [main]).

    Go's [int] is modelled as [Z] with 64-bit two's-complement wrap-around
    written out ([wrap64]); a [rune] is a [Z]; slices are lists indexed
    through a fallible [index]; a run-time panic is an explicit outcome.
    Of the standard library, [make]'s length check and the Scanner's line
    limit and carriage-return handling are modelled; [os.Open],
    [strconv.Atoi] and [fmt.Sscanf] are parameters. *)

From stdpp Require Import gmap strings list fin_maps.
From Stdlib Require Import ZArith Lia Ascii.

#[local] Open Scope Z_scope.

(** ** Outcomes of a Go computation *)

(** A computation returns a value, panics with a message, or (in the model
    only) exhausts the fuel given to a [for] loop. *)
Inductive outcome (A : Type) : Type :=
| Ret (a : A)
| Panic (msg : string)
| OutOfFuel.

Arguments Ret {A} a.
Arguments Panic {A} msg.
Arguments OutOfFuel {A}.

Definition bind {A B} (m : outcome A) (k : A → outcome B) : outcome B :=
  match m with
  | Ret a => k a
  | Panic s => Panic s
  | OutOfFuel => OutOfFuel
  end.

Notation "'let*' x ':=' m 'in' k" := (bind m (λ x, k))
  (at level 10, x name, m at level 100, k at level 200, only parsing).

(** Short-circuit [&&] and [||]: the right operand is evaluated only when
    the left one does not decide the result. *)
Definition andM (a b : outcome bool) : outcome bool :=
  let* x := a in if x then b else Ret false.

Definition orM (a b : outcome bool) : outcome bool :=
  let* x := a in if x then Ret true else b.

Definition notM (a : outcome bool) : outcome bool :=
  let* x := a in Ret (negb x).

(** ** Machine integers *)

Definition min_int : Z := - 2 ^ 63.
Definition max_int : Z := 2 ^ 63 - 1.

(** The value of a 64-bit signed result. *)
Definition wrap64 (z : Z) : Z := (z + 2 ^ 63) mod 2 ^ 64 - 2 ^ 63.

Definition is_int (z : Z) : Prop := min_int ≤ z ≤ max_int.

(** ** Slices *)

Definition len {A} (s : list A) : Z := Z.of_nat (length s).

Definition index_panic : string := "index out of range".

(** [s[i]]: panics outside [0 .. len s - 1]. *)
Definition index {A} (s : list A) (i : Z) : outcome A :=
  if (0 <=? i) && (i <? len s) then
    match s !! Z.to_nat i with
    | Some a => Ret a
    | None => Panic index_panic
    end
  else Panic index_panic.

(** [s[i] = v]: panics outside [0 .. len s - 1]. *)
Definition store {A} (s : list A) (i : Z) (v : A) : outcome (list A) :=
  if (0 <=? i) && (i <? len s) then Ret (<[Z.to_nat i := v]> s)
  else Panic index_panic.

(** The largest allocation the Go runtime accepts on a 64-bit platform
    (48 address bits). *)
Definition maxAlloc : Z := 2 ^ 48.

(** [make([]T, n)] for an element type of [elemsize] bytes: [n] zero
    values. As the runtime's [makeslice] does, it panics for a negative
    length and when [elemsize * n] overflows or exceeds [maxAlloc]. An
    allocation within that limit is taken to succeed: running out of memory
    is not modelled. *)
Definition make {A} (elemsize : Z) (zero : A) (n : Z) : outcome (list A) :=
  if (n <? 0) || (maxAlloc <? elemsize * n)
  then Panic "runtime error: makeslice: len out of range"
  else Ret (replicate (Z.to_nat n) zero).

(** ** The board *)

(** A [rune] is an integer code point. *)
Abbreviation rune := Z (only parsing).

Record TicTacToeBoard : Type := mkBoard {
  winLineLength : Z;
  board : list (list rune);   (* indexed board[y][x]; 0 is the empty cell *)
  freeSpots : Z;
  winner : rune;              (* 0 while nobody has won *)
  tie : bool
}.

Definition set_board (tb : TicTacToeBoard) (b : list (list rune)) :=
  mkBoard (winLineLength tb) b (freeSpots tb) (winner tb) (tie tb).
Definition set_freeSpots (tb : TicTacToeBoard) (n : Z) :=
  mkBoard (winLineLength tb) (board tb) n (winner tb) (tie tb).
Definition set_winner (tb : TicTacToeBoard) (w : rune) :=
  mkBoard (winLineLength tb) (board tb) (freeSpots tb) w (tie tb).
Definition set_tie (tb : TicTacToeBoard) (t : bool) :=
  mkBoard (winLineLength tb) (board tb) (freeSpots tb) (winner tb) t.

(** The loop [for r := 0; r < boardHeight; r++ { board[r] = make(..) }]:
    [n] iterations are left, the next one is at index [r]. A [rune] takes 4
    bytes and a slice header ([[]rune]) 24 bytes. *)
Fixpoint fill_rows (n : nat) (r : Z) (boardWidth : Z)
    (b : list (list rune)) : outcome (list (list rune)) :=
  match n with
  | O => Ret b
  | S n' =>
      let* row := make 4 0 boardWidth in
      let* b' := store b r row in
      fill_rows n' (wrap64 (r + 1)) boardWidth b'
  end.

Definition NewTicTacToeBoard (winLineLength boardWidth boardHeight : Z)
    : outcome TicTacToeBoard :=
  if winLineLength =? 0 then Panic "winLineLength must be > 0"
  else if (boardWidth <? 1) || (boardHeight <? 1) then
    Panic "boardWidth must be >= 1 and boardHeight must be >= 1"
  else
    let* b0 := make 24 [] boardHeight in
    let* b := fill_rows (Z.to_nat boardHeight) 0 boardWidth b0 in
    Ret (mkBoard winLineLength b (wrap64 (boardWidth * boardHeight)) 0 false).

(** [x >= 0 && x < len(tb.board[0]) && y >= 0 && y < len(tb.board)] *)
Definition InBounds (tb : TicTacToeBoard) (x y : Z) : outcome bool :=
  andM (Ret (x >=? 0))
    (andM (let* row0 := index (board tb) 0 in Ret (x <? len row0))
       (andM (Ret (y >=? 0)) (Ret (y <? len (board tb))))).

(** [tb.board[y][x]] *)
Definition cell (tb : TicTacToeBoard) (x y : Z) : outcome rune :=
  let* row := index (board tb) y in index row x.

Definition GetMark (tb : TicTacToeBoard) (x y : Z) : outcome rune :=
  let* inb := InBounds tb x y in
  if negb inb then Ret 0 else cell tb x y.

Definition IsSpotEmpty (tb : TicTacToeBoard) (x y : Z) : outcome bool :=
  let* m := GetMark tb x y in Ret (m =? 0).

Definition IsGameOver (tb : TicTacToeBoard) : bool :=
  tie tb || negb (winner tb =? 0).

(** [tb.board[y][x] = player] *)
Definition set_cell (tb : TicTacToeBoard) (x y : Z) (player : rune)
    : outcome TicTacToeBoard :=
  let* row := index (board tb) y in
  let* row' := store row x player in
  let* b' := store (board tb) y row' in
  Ret (set_board tb b').

(** The loop of the closure [getLineLength]; the caller has already moved
    [(x, y)] one step. Every iteration of the [for] uses one unit of fuel. *)
Fixpoint getLineLength_loop (fuel : nat) (tb : TicTacToeBoard)
    (player : rune) (x y x_off y_off length : Z) : outcome Z :=
  match fuel with
  | O => OutOfFuel
  | S fuel' =>
      let* c := andM (InBounds tb x y)
               (let* m := cell tb x y in Ret (m =? player)) in
      if c then
        getLineLength_loop fuel' tb player
          (wrap64 (x + x_off)) (wrap64 (y + y_off)) x_off y_off
          (wrap64 (length + 1))
      else Ret length
  end.

(** Fuel that suffices on a rectangular board: a scan leaves the grid after
    at most [max width height] steps. *)
Definition scan_fuel (tb : TicTacToeBoard) : nat :=
  S (length (board tb) + length (hd [] (board tb))).

Definition getLineLength (tb : TicTacToeBoard) (player : rune)
    (x y x_off y_off : Z) : outcome Z :=
  getLineLength_loop (scan_fuel tb) tb player
    (wrap64 (x + x_off)) (wrap64 (y + y_off)) x_off y_off 0.

Definition DirOffsets : list (Z * Z) := [(0, 1); (1, 1); (1, 0); (1, -1)].

(** [1 + dirLength + oppDirLength] for one direction. *)
Definition lineLength (tb : TicTacToeBoard) (player : rune) (x y : Z)
    (dir : Z * Z) : outcome Z :=
  let* dirLength := getLineLength tb player x y dir.1 dir.2 in
  let* oppDirLength :=
    getLineLength tb player x y (wrap64 (- dir.1)) (wrap64 (- dir.2)) in
  Ret (wrap64 (wrap64 (1 + dirLength) + oppDirLength)).

(** [for _, dir := range dirs { ...; if length >= tb.winLineLength
    { tb.winner = player; break } }] *)
Fixpoint checkDirs (tb : TicTacToeBoard) (player : rune) (x y : Z)
    (dirs : list (Z * Z)) : outcome TicTacToeBoard :=
  match dirs with
  | [] => Ret tb
  | dir :: rest =>
      let* length := lineLength tb player x y dir in
      if length >=? winLineLength tb then Ret (set_winner tb player)
      else checkDirs tb player x y rest
  end.

(** The guard of [PlaceMove]:
    [tb.IsGameOver() || !tb.InBounds(x, y) || tb.board[y][x] != 0 ||
     tb.freeSpots == 0]. *)
Definition rejects (tb : TicTacToeBoard) (x y : Z) : outcome bool :=
  orM (Ret (IsGameOver tb))
    (orM (notM (InBounds tb x y))
       (orM (let* m := cell tb x y in Ret (negb (m =? 0)))
            (Ret (freeSpots tb =? 0)))).

(** [tb.board[y][x] = player; tb.freeSpots--] *)
Definition mark (tb : TicTacToeBoard) (x y : Z) (player : rune)
    : outcome TicTacToeBoard :=
  let* tb1 := set_cell tb x y player in
  Ret (set_freeSpots tb1 (wrap64 (freeSpots tb1 - 1))).

Definition PlaceMove (tb : TicTacToeBoard) (x y : Z) (player : rune)
    : outcome TicTacToeBoard :=
  let* reject := rejects tb x y in
  if reject then Ret tb
  else
    let* tb2 := mark tb x y player in
    let* tb3 := checkDirs tb2 player x y DirOffsets in
    if (winner tb3 =? 0) && (freeSpots tb3 =? 0) then Ret (set_tie tb3 true)
    else Ret tb3.

(** ** Properties of boards used in the statements *)

Definition height (tb : TicTacToeBoard) : Z := len (board tb).
Definition width (tb : TicTacToeBoard) : Z := len (hd [] (board tb)).

(** The bounds test as a plain boolean. *)
Definition inb (tb : TicTacToeBoard) (x y : Z) : bool :=
  (0 <=? x) && (x <? width tb) && (0 <=? y) && (y <? height tb).

(** An upper bound on the number of cells a scan can visit when it is at
    [(x, y)] and moves by [(dx, dy)]. *)
Definition steps (tb : TicTacToeBoard) (x y dx dy : Z) : Z :=
  if 0 <? dx then width tb - x
  else if dx <? 0 then x + 1
  else if 0 <? dy then height tb - y
  else y + 1.

Definition room (tb : TicTacToeBoard) (x y dx dy : Z) : Z :=
  if inb tb x y then steps tb x y dx dy else 0.

(** The representation invariant of a board: the grid has at least one row,
    all rows are as long as the first one, the lengths are Go [int]s, and
    the free-cell count is a non-negative [int]. *)
Record Valid (tb : TicTacToeBoard) : Prop := mkValid {
  valid_rows : board tb ≠ [];
  valid_rect : Forall (λ row, length row = length (hd [] (board tb))) (board tb);
  valid_height : height tb ≤ max_int;
  valid_width : width tb ≤ max_int;
  valid_free : 0 ≤ freeSpots tb ≤ max_int
}.

(** The content of the grid at [(x, y)], if there is such a cell. *)
Definition mark_at (g : list (list rune)) (x y : Z) : option rune :=
  if (0 <=? x) && (0 <=? y) then
    match g !! Z.to_nat y with
    | Some row => row !! Z.to_nat x
    | None => None
    end
  else None.

(** The grid after [tb.board[y][x] = p]. *)
Definition grid_set (g : list (list rune)) (x y : Z) (p : rune)
    : list (list rune) :=
  match g !! Z.to_nat y with
  | Some row => <[Z.to_nat y := <[Z.to_nat x := p]> row]> g
  | None => g
  end.

(** The board after an accepted placement has marked the cell and
    decremented the count, before the win evaluation. *)
Definition placed (tb : TicTacToeBoard) (x y : Z) (p : rune)
    : TicTacToeBoard :=
  set_freeSpots (set_board tb (grid_set (board tb) x y p)) (freeSpots tb - 1).

(** The number of empty cells of a grid. *)
Definition empties (g : list (list rune)) : nat :=
  length (filter (λ m, m = 0) (concat g)).

(** The free-cell count is the number of empty cells. *)
Definition Counted (tb : TicTacToeBoard) : Prop :=
  freeSpots tb = Z.of_nat (empties (board tb)).

(** A placement is accepted when none of the four conditions of the guard
    holds. *)
Definition accepted (tb : TicTacToeBoard) (x y : Z) : Prop :=
  IsGameOver tb = false ∧ InBounds tb x y = Ret true ∧
  IsSpotEmpty tb x y = Ret true ∧ freeSpots tb ≠ 0.

(** [n] is the number of consecutive cells holding [p] strictly in the
    direction [(dx, dy)] from [(x, y)]: the [n] next cells hold [p] and the
    one after them does not (or is outside the grid). *)
Definition run (g : list (list rune)) (p : rune) (x y dx dy n : Z) : Prop :=
  0 ≤ n ∧
  (∀ k, 1 ≤ k ≤ n → mark_at g (x + k * dx) (y + k * dy) = Some p) ∧
  mark_at g (x + (n + 1) * dx) (y + (n + 1) * dy) ≠ Some p.

(** The total run through [(x, y)] along [d] reaches the win-line-length:
    1 for the cell itself, plus the run along [d], plus the run along
    [-d]. *)
Definition qualifies (tb : TicTacToeBoard) (p : rune) (x y : Z)
    (d : Z * Z) : Prop :=
  ∃ f b, run (board tb) p x y d.1 d.2 f ∧
         run (board tb) p x y (- d.1) (- d.2) b ∧
         winLineLength tb ≤ 1 + f + b.

(** A step of one coordinate unit in at least one axis. *)
Definition unit_dir (dx dy : Z) : Prop :=
  -1 ≤ dx ≤ 1 ∧ -1 ≤ dy ≤ 1 ∧ (dx ≠ 0 ∨ dy ≠ 0).

(** States of a game: a freshly constructed board, then any number of
    [PlaceMove] calls that return. *)
Inductive Reachable : TicTacToeBoard → Prop :=
| reach_new wll w h tb :
    NewTicTacToeBoard wll w h = Ret tb → Reachable tb
| reach_move tb x y p tb' :
    Reachable tb → PlaceMove tb x y p = Ret tb' → Reachable tb'.

(** [tb'] is [tb] or a later state of the same game. *)
Inductive Later (tb : TicTacToeBoard) : TicTacToeBoard → Prop :=
| later_refl : Later tb tb
| later_move tb1 x y p tb2 :
    Later tb tb1 → PlaceMove tb1 x y p = Ret tb2 → Later tb tb2.

(** ** Example boards *)

(** X is the rune 88, O the rune 79. *)
Definition empty3 : TicTacToeBoard :=
  mkBoard 3 [[0; 0; 0]; [0; 0; 0]; [0; 0; 0]] 9 0 false.

(** X holds (0,0) and (1,0), O holds (0,1) and (1,1); X is to move. *)
Definition two_in_row : TicTacToeBoard :=
  mkBoard 3 [[88; 88; 0]; [79; 79; 0]; [0; 0; 0]] 5 0 false.

(** [two_in_row] after X has taken (2,0). *)
Definition won3 : TicTacToeBoard :=
  mkBoard 3 [[88; 88; 88]; [79; 79; 0]; [0; 0; 0]] 4 88 false.

(** Only (2,2) is free, and X completes no line there. *)
Definition last_cell : TicTacToeBoard :=
  mkBoard 3 [[88; 79; 88]; [88; 79; 79]; [79; 88; 0]] 1 0 false.

(** ** The duplicate-line counter *)

(** A [*os.File]: [None] is the nil file that [os.Open] returns with an
    error, [Some ls] an open file whose text is the lines [ls] (each
    without its newline). *)
Definition File : Type := option (list string).

(** [bufio.MaxScanTokenSize]: the size of the Scanner's buffer. *)
Definition MaxScanTokenSize : Z := 64 * 1024.

(** [ScanLines] drops one trailing carriage return from a line. *)
Fixpoint dropCR (s : string) : string :=
  match s with
  | EmptyString => EmptyString
  | String c rest =>
      match rest with
      | EmptyString => if Ascii.eqb c "013"%char then EmptyString else s
      | String _ _ => String c (dropCR rest)
      end
  end.

(** The tokens successive [Scan]/[Text] calls yield on a text: a line and
    its newline must fit the buffer, so at the first line of
    [MaxScanTokenSize] bytes or more [Scan] returns false (the error is
    left unread by the program) and nothing after it is produced. *)
Fixpoint scan (ls : list string) : list string :=
  match ls with
  | [] => []
  | l :: rest =>
      if Z.of_nat (String.length l) >=? MaxScanTokenSize then []
      else dropCR l :: scan rest
  end.

(** Reading a nil file fails at once, so the first [Scan] is false and no
    token is produced. *)
Definition tokens (f : File) : list string :=
  match f with
  | Some ls => scan ls
  | None => []
  end.

(** [for input.Scan() { counts[input.Text()]++ }]; a missing key reads 0. *)
Fixpoint count_loop (ts : list string) (counts : gmap string Z)
    : gmap string Z :=
  match ts with
  | [] => counts
  | t :: rest =>
      count_loop rest (<[t := wrap64 (default 0 (counts !! t) + 1)]> counts)
  end.

Definition countLines (f : File) (counts : gmap string Z) : gmap string Z :=
  count_loop (tokens f) counts.

Definition open_error (e : string) : string := "dup: " +:+ e +:+ "
".

(** [for _, arg := range files { f, err := os.Open(arg); if err != nil
    { report }; countLines(f, counts); f.Close() }]. [Open] gives for a name
    the error text or the lines of the file; [errs] is what has been written
    to standard error. *)
Fixpoint open_loop (Open : string → string + list string)
    (files : list string) (counts : gmap string Z) (errs : list string)
    : gmap string Z * list string :=
  match files with
  | [] => (counts, errs)
  | arg :: rest =>
      match Open arg with
      | inl e =>
          open_loop Open rest (countLines None counts)
            (errs ++ [open_error e])
      | inr ls => open_loop Open rest (countLines (Some ls) counts) errs
      end
  end.

(** The counting part of [main]: the final [counts] and standard error. *)
Definition main_counts (Open : string → string + list string)
    (stdin : list string) (files : list string)
    : gmap string Z * list string :=
  match files with
  | [] => (countLines (Some stdin) ∅, [])
  | _ => open_loop Open files ∅ []
  end.

(** [for line, n := range counts { if n > 1 { print n, line } }] over the
    entries in the order the iteration visits them. *)
Fixpoint print_loop (entries : list (string * Z)) : list (Z * string) :=
  match entries with
  | [] => []
  | (line, n) :: rest =>
      if n >? 1 then (n, line) :: print_loop rest else print_loop rest
  end.

(** Go leaves the iteration order of a map unspecified: every entry is
    visited once, in some order. *)
Definition range_of (counts : gmap string Z) (entries : list (string * Z))
    : Prop :=
  entries ≡ₚ map_to_list counts.

(** [out] is a possible standard output of [main] and [errs] its standard
    error. *)
Definition main (Open : string → string + list string)
    (stdin files : list string) (out : list (Z * string))
    (errs : list string) : Prop :=
  ∃ entries,
    range_of (main_counts Open stdin files).1 entries ∧
    out = print_loop entries ∧
    errs = (main_counts Open stdin files).2.

(** The number of occurrences of [l] in [ts]. *)
Fixpoint occurrences (l : string) (ts : list string) : Z :=
  match ts with
  | [] => 0
  | t :: rest => (if decide (t = l) then 1 else 0) + occurrences l rest
  end.

(** The lines the Scanner yields from the named files that open, in
    order. *)
Fixpoint lines_of (Open : string → string + list string)
    (files : list string) : list string :=
  match files with
  | [] => []
  | arg :: rest =>
      match Open arg with
      | inl _ => lines_of Open rest
      | inr ls => tokens (Some ls) ++ lines_of Open rest
      end
  end.

(** The text of the named files that open: all their lines, in order. *)
Fixpoint file_lines (Open : string → string + list string)
    (files : list string) : list string :=
  match files with
  | [] => []
  | arg :: rest =>
      match Open arg with
      | inl _ => file_lines Open rest
      | inr ls => ls ++ file_lines Open rest
      end
  end.

(** A line the Scanner passes on as it is: shorter than 65536 bytes and
    not ending in a carriage return. *)
Definition plain (l : string) : Prop :=
  Z.of_nat (String.length l) < 65536 ∧
  ∀ s, l ≠ s +:+ String "013"%char EmptyString.

(** A line of 65536 bytes. *)
Definition long_line : string :=
  String.string_of_list_ascii (replicate (Z.to_nat 65536) "a"%char).

(** The lines [main] counts: those the Scanner yields from standard input
    when no file is named, from the named files that open otherwise. *)
Definition input_lines (Open : string → string + list string)
    (stdin files : list string) : list string :=
  match files with
  | [] => tokens (Some stdin)
  | _ => lines_of Open files
  end.

(** The error texts of the named files that do not open, in order. *)
Fixpoint failures (Open : string → string + list string)
    (files : list string) : list string :=
  match files with
  | [] => []
  | arg :: rest =>
      match Open arg with
      | inl e => e :: failures Open rest
      | inr _ => failures Open rest
      end
  end.

(** An example file system: one name that does not open, every other name
    a file of three lines. *)
Definition example_open (name : string) : string + list string :=
  if decide (name = "missing.txt")
  then inl "open missing.txt: no such file or directory"
  else inr ["x"; "y"; "x"].

(** ** Sequences of placements *)

(** A list of [PlaceMove] calls [(x, y, player)], one after the other. *)
Fixpoint PlaceMoves (tb : TicTacToeBoard) (moves : list (Z * Z * rune))
    : outcome TicTacToeBoard :=
  match moves with
  | [] => Ret tb
  | (x, y, player) :: rest =>
      let* tb' := PlaceMove tb x y player in PlaceMoves tb' rest
  end.

(** ** The command line and the game loop of the tic-tac-toe program *)

(** A Go string is a sequence of bytes: [len(s)] and [s[i]]. *)
Definition str_len (s : string) : Z := Z.of_nat (String.length s).

Definition byte_at (s : string) (i : Z) : outcome Z :=
  if (0 <=? i) && (i <? str_len s) then
    match String.get (Z.to_nat i) s with
    | Some c => Ret (Z.of_N (Ascii.N_of_ascii c))
    | None => Panic index_panic
    end
  else Panic index_panic.

(** [Atoi] stands for [strconv.Atoi]: [Some val] when it returns no
    error. *)
Definition tryArgInt (Atoi : string → option Z) (Args : list string)
    (i defaultValue : Z) : outcome Z :=
  if i <? len Args then
    let* a := index Args i in
    match Atoi a with
    | None => Ret defaultValue
    | Some val => Ret val
    end
  else Ret defaultValue.

Definition tryArg (Args : list string) (i : Z) (defaultValue : string)
    : outcome string :=
  if i <? len Args then index Args i else Ret defaultValue.

(** What the program writes, one constructor for each print statement. *)
Inductive event : Type :=
| Banner (boardHeight boardWidth winLineLength : Z) (players : string)
| Printed (tb : TicTacToeBoard)
| Prompt (c : Z)
| InvalidInput
| SpotTaken (x y : Z)
| PlacedAt (c x y : Z)
| Wins (w : rune)
| Tied.

(** How an iteration of a [for] loop ends: [continue] (or the end of the
    body), or [break]. *)
Inductive flow (A : Type) : Type :=
| Continue (a : A)
| Break (a : A).

Arguments Continue {A} a.
Arguments Break {A} a.

(** The body of the game loop after a line [text] has been read. [Sscanf]
    stands for [fmt.Sscanf(text, "%d %d\n", &x, &y)]: [Some (x, y)] when it
    returns [n = 2] and no error. The state is the board, the index of the
    current player and what has been written so far. *)
Definition game_turn (Sscanf : string → option (Z * Z))
    (boardWidth boardHeight : Z) (players : string) (text : string)
    (tb : TicTacToeBoard) (currPlayerIndex : Z) (out : list event)
    : outcome (flow (TicTacToeBoard * Z * list event)) :=
  match Sscanf text with
  | None => Ret (Continue (tb, currPlayerIndex, out ++ [InvalidInput]))
  | Some (x, y) =>
      if (x <? 0) || (x >=? boardWidth) || (y <? 0) || (y >=? boardHeight)
      then Ret (Continue (tb, currPlayerIndex, out ++ [InvalidInput]))
      else
        let* empty := IsSpotEmpty tb x y in
        if negb empty
        then Ret (Continue (tb, currPlayerIndex, out ++ [SpotTaken x y]))
        else
          let* c := byte_at players currPlayerIndex in
          let* tb' := PlaceMove tb x y c in
          let* c' := byte_at players currPlayerIndex in
          let out := out ++ [PlacedAt c' x y] in
          if IsGameOver tb' then
            let out := out ++ [Printed tb'] in
            if negb (winner tb' =? 0)
            then Ret (Break (tb', currPlayerIndex, out ++ [Wins (winner tb')]))
            else Ret (Break (tb', currPlayerIndex, out ++ [Tied]))
          else if str_len players =? 0 then Panic "integer divide by zero"
          else
            Ret (Continue
                   (tb', Z.rem (wrap64 (currPlayerIndex + 1)) (str_len players),
                    out))
  end.

(** The game loop over the lines the Scanner yields; it ends when the input
    ends or when an iteration breaks. *)
Fixpoint game_loop (Sscanf : string → option (Z * Z))
    (boardWidth boardHeight : Z) (players : string) (lines : list string)
    (tb : TicTacToeBoard) (currPlayerIndex : Z) (out : list event)
    : outcome (TicTacToeBoard * Z * list event) :=
  let* c := byte_at players currPlayerIndex in
  let out := out ++ [Printed tb; Prompt c] in
  match lines with
  | [] => Ret (tb, currPlayerIndex, out)
  | text :: rest =>
      let* r := game_turn Sscanf boardWidth boardHeight players text
                  tb currPlayerIndex out in
      match r with
      | Continue (tb', i', out') =>
          game_loop Sscanf boardWidth boardHeight players rest tb' i' out'
      | Break st => Ret st
      end
  end.

(** The configuration [main] reads from the command line:
    [(boardHeight, boardWidth, winLineLength, players)]. *)
Definition main_config (Atoi : string → option Z) (Args : list string)
    : outcome (Z * Z * Z * string) :=
  let* h := tryArgInt Atoi Args 1 3 in
  let boardHeight := Z.max h 1 in
  let* w := tryArgInt Atoi Args 2 3 in
  let boardWidth := Z.max w 1 in
  let* l := tryArgInt Atoi Args 3 3 in
  let winLineLength := Z.max l 1 in
  let* players := tryArg Args 4 "XO" in
  let players := if str_len players <? 2 then "XO"%string else players in
  Ret (boardHeight, boardWidth, winLineLength, players).

(** [main] of the tic-tac-toe program: the final board, player index and
    output. *)
Definition tictactoe_main (Atoi : string → option Z)
    (Sscanf : string → option (Z * Z)) (Args stdin : list string)
    : outcome (TicTacToeBoard * Z * list event) :=
  let* cfg := main_config Atoi Args in
  let '(boardHeight, boardWidth, winLineLength, players) := cfg in
  let* tb := NewTicTacToeBoard winLineLength boardWidth boardHeight in
  game_loop Sscanf boardWidth boardHeight players stdin tb 0
    [Banner boardHeight boardWidth winLineLength players].

(** No byte of the string is zero. *)
Fixpoint no_zero_byte (s : string) : bool :=
  match s with
  | EmptyString => true
  | String a s' => negb (Ascii.N_of_ascii a =? 0)%N && no_zero_byte s'
  end.

(** What holds at the head of the game loop: the board is valid, counts
    its empty cells, has the dimensions [main] checks the input against and
    is not over; the current index is a position of [players]; no player
    symbol is the zero byte (a command-line argument cannot contain one);
    and [len(players)] is an [int]. *)
Record Playing (boardWidth boardHeight : Z) (players : string)
    (tb : TicTacToeBoard) (currPlayerIndex : Z) : Prop := mkPlaying {
  play_valid : Valid tb;
  play_counted : Counted tb;
  play_width : width tb = boardWidth;
  play_height : height tb = boardHeight;
  play_on : IsGameOver tb = false;
  play_index : 0 ≤ currPlayerIndex < str_len players;
  play_marks : no_zero_byte players = true;
  play_len : str_len players ≤ max_int
}.

(** Stand-ins for the two parsers on the inputs of the examples. *)
Definition example_atoi (s : string) : option Z :=
  if decide (s = "0") then Some 0
  else if decide (s = "1") then Some 1
  else if decide (s = "2") then Some 2
  else if decide (s = "3") then Some 3
  else if decide (s = "-5") then Some (-5)
  else if decide (s = "4611686018427387904") then Some (2 ^ 62)
  else None.

Definition example_sscanf (s : string) : option (Z * Z) :=
  if decide (s = "0 0") then Some (0, 0)
  else if decide (s = "1 0") then Some (1, 0)
  else if decide (s = "0 1") then Some (0, 1)
  else if decide (s = "1 1") then Some (1, 1)
  else if decide (s = "7 7") then Some (7, 7)
  else None.

(** * Proofs *)

(** ** Machine integers and slices *)

Lemma wrap64_id z : is_int z → wrap64 z = z.
Proof.
  unfold is_int, min_int, max_int, wrap64. intros Hz.
  rewrite Z.mod_small; lia.
Qed.

Lemma wrap64_is_int z : is_int (wrap64 z).
Proof.
  unfold is_int, min_int, max_int, wrap64.
  pose proof (Z.mod_pos_bound (z + 2 ^ 63) (2 ^ 64)). lia.
Qed.

Lemma wrap64_add_l a b : wrap64 (wrap64 a + b) = wrap64 (a + b).
Proof.
  unfold wrap64. f_equal.
  replace ((a + 2 ^ 63) mod 2 ^ 64 - 2 ^ 63 + b + 2 ^ 63)
    with ((a + 2 ^ 63) mod 2 ^ 64 + b) by lia.
  rewrite Zplus_mod_idemp_l. f_equal. lia.
Qed.

Lemma max_int_val : max_int = 9223372036854775807.
Proof. reflexivity. Qed.

Lemma min_int_val : min_int = -9223372036854775808.
Proof. reflexivity. Qed.

Lemma index_Ret {A} (s : list A) i a :
  index s i = Ret a ↔ 0 ≤ i ∧ s !! Z.to_nat i = Some a.
Proof.
  unfold index, len. split.
  - destruct (0 <=? i) eqn:H0; [|done]. destruct (i <? _); [|done].
    simpl. destruct (s !! Z.to_nat i); [|done]. intros [= ->]. split; [lia|done].
  - intros [H0 Hl]. pose proof (lookup_lt_Some _ _ _ Hl).
    rewrite (proj2 (Z.leb_le 0 i)) by lia.
    rewrite (proj2 (Z.ltb_lt i _)) by lia. simpl. by rewrite Hl.
Qed.

Lemma index_in_range {A} (s : list A) i :
  0 ≤ i < len s → ∃ a, index s i = Ret a ∧ s !! Z.to_nat i = Some a.
Proof.
  unfold len. intros Hi.
  destruct (lookup_lt_is_Some_2 s (Z.to_nat i)) as [a Ha]; [lia|].
  exists a. split; [|done]. apply index_Ret. split; [lia|done].
Qed.

Lemma store_in_range {A} (s : list A) i v :
  0 ≤ i < len s → store s i v = Ret (<[Z.to_nat i := v]> s).
Proof.
  unfold store. intros Hi.
  rewrite (proj2 (Z.leb_le 0 i)) by lia.
  by rewrite (proj2 (Z.ltb_lt i _)) by lia.
Qed.

(** ** Bounds and cells on a valid board *)

Lemma inb_spec tb x y :
  inb tb x y = true ↔ 0 ≤ x < width tb ∧ 0 ≤ y < height tb.
Proof. unfold inb. rewrite !andb_true_iff. lia. Qed.

Lemma inb_false tb x y :
  inb tb x y = false ↔ ¬ (0 ≤ x < width tb ∧ 0 ≤ y < height tb).
Proof. rewrite <- inb_spec. by destruct (inb tb x y). Qed.

Lemma Valid_row0 tb :
  Valid tb → index (board tb) 0 = Ret (hd [] (board tb)).
Proof.
  intros [Hne _ _ _ _]. destruct (board tb) as [|r rs]; [done|]. reflexivity.
Qed.

Lemma InBounds_inb tb x y : Valid tb → InBounds tb x y = Ret (inb tb x y).
Proof.
  intros Hv. unfold InBounds, inb, andM, width, height.
  rewrite (Valid_row0 _ Hv). simpl.
  rewrite Z.geb_leb. destruct (0 <=? x); [|done]. simpl.
  destruct (x <? _); [|done]. simpl.
  rewrite Z.geb_leb. by destruct (0 <=? y).
Qed.

Lemma Valid_row tb y row :
  Valid tb → board tb !! y = Some row → len row = width tb.
Proof.
  intros Hv Hy. pose proof (valid_rect _ Hv) as Hr.
  rewrite Forall_lookup in Hr. unfold len, width. by rewrite (Hr _ _ Hy).
Qed.

Lemma mark_at_inb tb x y :
  Valid tb → inb tb x y = true → ∃ m, mark_at (board tb) x y = Some m.
Proof.
  intros Hv [Hx Hy]%inb_spec. unfold mark_at, height, len in *.
  rewrite (proj2 (Z.leb_le 0 x)), (proj2 (Z.leb_le 0 y)) by lia. simpl.
  destruct (lookup_lt_is_Some_2 (board tb) (Z.to_nat y)) as [row Hrow]; [lia|].
  rewrite Hrow. pose proof (Valid_row _ _ _ Hv Hrow) as Hw. unfold len in Hw.
  apply lookup_lt_is_Some_2. lia.
Qed.

Lemma mark_at_outside tb x y :
  Valid tb → inb tb x y = false → mark_at (board tb) x y = None.
Proof.
  intros Hv Hout%inb_false. unfold mark_at, height, len in *.
  destruct (0 <=? x) eqn:Hx; [|done]. destruct (0 <=? y) eqn:Hy; [|done].
  simpl. apply Z.leb_le in Hx, Hy.
  destruct (board tb !! Z.to_nat y) as [row|] eqn:Hrow; [|done].
  pose proof (lookup_lt_Some _ _ _ Hrow).
  pose proof (Valid_row _ _ _ Hv Hrow) as Hw. unfold len in Hw.
  apply lookup_ge_None. lia.
Qed.

Lemma cell_inb tb x y m :
  Valid tb → inb tb x y = true →
  mark_at (board tb) x y = Some m → cell tb x y = Ret m.
Proof.
  intros Hv [Hx Hy]%inb_spec. unfold mark_at, cell.
  rewrite (proj2 (Z.leb_le 0 x)), (proj2 (Z.leb_le 0 y)) by lia. simpl.
  destruct (board tb !! Z.to_nat y) as [row|] eqn:Hrow; [|done].
  intros Hm. rewrite (proj2 (index_Ret _ _ row)) by (split; [lia|done]).
  simpl. apply index_Ret. split; [lia|done].
Qed.

Lemma cell_Ret tb x y :
  Valid tb → inb tb x y = true →
  ∃ m, cell tb x y = Ret m ∧ mark_at (board tb) x y = Some m.
Proof.
  intros Hv Hin. destruct (mark_at_inb _ _ _ Hv Hin) as [m Hm].
  exists m. split; [by apply cell_inb|done].
Qed.

Lemma GetMark_spec tb x y :
  Valid tb → GetMark tb x y = Ret (default 0 (mark_at (board tb) x y)).
Proof.
  intros Hv. unfold GetMark. rewrite (InBounds_inb _ _ _ Hv). simpl.
  destruct (inb tb x y) eqn:Hin; simpl.
  - destruct (cell_Ret _ _ _ Hv Hin) as (m & -> & ->). done.
  - by rewrite (mark_at_outside _ _ _ Hv Hin).
Qed.

(** ** The run-length scan *)

Lemma Valid_dims tb : Valid tb → 1 ≤ height tb ≤ max_int ∧ 0 ≤ width tb ≤ max_int.
Proof.
  intros [Hne _ Hh Hw _]. unfold height, width, len in *.
  destruct (board tb); [done|]. simpl in *. lia.
Qed.

Lemma steps_inb tb x y dx dy :
  inb tb x y = true →
  1 ≤ steps tb x y dx dy ∧ steps tb x y dx dy ≤ Z.max (width tb) (height tb).
Proof.
  intros [Hx Hy]%inb_spec. unfold steps.
  destruct (0 <? dx), (dx <? 0), (0 <? dy); lia.
Qed.

Lemma steps_next tb x y dx dy :
  unit_dir dx dy →
  steps tb (x + dx) (y + dy) dx dy = steps tb x y dx dy - 1.
Proof.
  intros (Hx & Hy & Hnz). unfold steps.
  destruct (0 <? dx) eqn:E1; [apply Z.ltb_lt in E1; lia|].
  destruct (dx <? 0) eqn:E2; [apply Z.ltb_lt in E2; lia|].
  apply Z.ltb_ge in E1, E2.
  destruct (0 <? dy) eqn:E3; [apply Z.ltb_lt in E3; lia|].
  apply Z.ltb_ge in E3. lia.
Qed.

Lemma room_bounds tb x y dx dy :
  0 ≤ room tb x y dx dy ≤ Z.max (width tb) (height tb).
Proof.
  unfold room. destruct (inb tb x y) eqn:Hin.
  - pose proof (steps_inb tb x y dx dy Hin). lia.
  - unfold width, height, len. lia.
Qed.

Lemma room_next tb x y dx dy :
  unit_dir dx dy → inb tb x y = true →
  room tb (x + dx) (y + dy) dx dy ≤ steps tb x y dx dy - 1.
Proof.
  intros Hd Hin. unfold room. destruct (inb tb (x + dx) (y + dy)).
  - rewrite steps_next by done. lia.
  - pose proof (steps_inb tb x y dx dy Hin). lia.
Qed.

Lemma inb_is_int tb x y dx dy :
  Valid tb → unit_dir dx dy → inb tb x y = true →
  is_int (x + dx) ∧ is_int (y + dy).
Proof.
  intros Hv (Hx & Hy & _) [Hbx Hby]%inb_spec.
  pose proof (Valid_dims _ Hv). unfold is_int. rewrite min_int_val.
  rewrite max_int_val in *. lia.
Qed.

(** More fuel does not change the result of a scan that returns. *)
Lemma getLineLength_loop_fuel tb player dx dy fuel :
  ∀ x y acc v,
    getLineLength_loop fuel tb player x y dx dy acc = Ret v →
    ∀ fuel', (fuel ≤ fuel')%nat →
      getLineLength_loop fuel' tb player x y dx dy acc = Ret v.
Proof.
  induction fuel as [|fuel IH]; intros x y acc v Hrun fuel' Hle; [done|].
  destruct fuel' as [|fuel']; [lia|]. simpl in *.
  destruct (andM _ _) as [[]| |]; simpl in *; try done.
  apply IH; [done|lia].
Qed.

Section Scan.
Variables (tb : TicTacToeBoard) (player : rune) (dx dy : Z).
Hypothesis Hv : Valid tb.
Hypothesis Hd : unit_dir dx dy.

(** The loop counts the cells holding [player] from [(x, y)] on, and stops
    at the first cell that does not (or outside the grid). *)
Lemma getLineLength_loop_spec :
  ∀ fuel x y acc,
    room tb x y dx dy < Z.of_nat fuel →
    0 ≤ acc → acc + room tb x y dx dy ≤ max_int →
    ∃ n, getLineLength_loop fuel tb player x y dx dy acc = Ret (acc + n) ∧
         0 ≤ n ≤ room tb x y dx dy ∧
         (∀ k, 0 ≤ k < n →
               mark_at (board tb) (x + k * dx) (y + k * dy) = Some player) ∧
         mark_at (board tb) (x + n * dx) (y + n * dy) ≠ Some player.
Proof.
  induction fuel as [|fuel IH]; intros x y acc Hfuel Hacc Hmax.
  { pose proof (room_bounds tb x y dx dy). lia. }
  simpl. unfold andM. rewrite (InBounds_inb _ _ _ Hv). simpl.
  unfold room in Hfuel, Hmax |- *.
  destruct (inb tb x y) eqn:Hin; simpl.
  - destruct (cell_Ret _ _ _ Hv Hin) as (m & Hc & Hm). rewrite Hc. simpl.
    pose proof (steps_inb tb x y dx dy Hin) as [Hs1 Hs2].
    destruct (m =? player) eqn:Heq.
    + apply Z.eqb_eq in Heq. subst m.
      destruct (inb_is_int _ _ _ _ _ Hv Hd Hin) as [Hix Hiy].
      rewrite !wrap64_id;
        [|unfold is_int; rewrite min_int_val; lia|done|done].
      pose proof (room_next tb x y dx dy Hd Hin) as Hr.
      destruct (IH (x + dx) (y + dy) (acc + 1))
        as (n & Hn & Hb & Hall & Hstop); [lia|lia|lia|].
      exists (n + 1). split; [rewrite Hn; f_equal; lia|].
      split; [lia|]. split.
      * intros k Hk. destruct (decide (k = 0)) as [->|Hk0].
        { by rewrite !Z.mul_0_l, !Z.add_0_r. }
        replace (x + k * dx) with (x + dx + (k - 1) * dx) by lia.
        replace (y + k * dy) with (y + dy + (k - 1) * dy) by lia.
        apply Hall. lia.
      * replace (x + (n + 1) * dx) with (x + dx + n * dx) by lia.
        replace (y + (n + 1) * dy) with (y + dy + n * dy) by lia. done.
    + apply Z.eqb_neq in Heq. exists 0. rewrite Z.add_0_r.
      split; [done|]. split; [lia|]. split; [intros; lia|].
      rewrite !Z.mul_0_l, !Z.add_0_r, Hm. congruence.
  - exists 0. rewrite Z.add_0_r. split; [done|]. split; [lia|].
    split; [intros; lia|].
    rewrite !Z.mul_0_l, !Z.add_0_r, (mark_at_outside _ _ _ Hv Hin). done.
Qed.

Lemma scan_fuel_enough x y : room tb x y dx dy < Z.of_nat (scan_fuel tb).
Proof.
  pose proof (room_bounds tb x y dx dy). unfold scan_fuel.
  unfold width, height, len in *. lia.
Qed.

(** The scan returns from any start, on every valid board. *)
Lemma getLineLength_total x y :
  ∃ n, getLineLength tb player x y dx dy = Ret n.
Proof.
  unfold getLineLength.
  destruct (getLineLength_loop_spec (scan_fuel tb)
              (wrap64 (x + dx)) (wrap64 (y + dy)) 0) as (n & Hn & _).
  - apply scan_fuel_enough.
  - done.
  - pose proof (room_bounds tb (wrap64 (x + dx)) (wrap64 (y + dy)) dx dy).
    pose proof (Valid_dims _ Hv). lia.
  - exists n. by rewrite Hn.
Qed.

(** From a cell of the grid, the scan computes the run in its direction. *)
Lemma getLineLength_run x y :
  inb tb x y = true →
  ∃ n, getLineLength tb player x y dx dy = Ret n ∧
       run (board tb) player x y dx dy n ∧
       n ≤ steps tb x y dx dy - 1.
Proof.
  intros Hin. unfold getLineLength.
  destruct (inb_is_int _ _ _ _ _ Hv Hd Hin) as [Hix Hiy].
  rewrite !wrap64_id by done.
  pose proof (room_next tb x y dx dy Hd Hin) as Hr.
  pose proof (steps_inb tb x y dx dy Hin) as [Hs1 Hs2].
  pose proof (Valid_dims _ Hv) as Hdims.
  destruct (getLineLength_loop_spec (scan_fuel tb) (x + dx) (y + dy) 0)
    as (n & Hn & Hb & Hall & Hstop).
  - apply scan_fuel_enough.
  - done.
  - lia.
  - exists n. split; [by rewrite Hn|]. split; [|lia].
    split; [lia|]. split.
    + intros k Hk.
      replace (x + k * dx) with (x + dx + (k - 1) * dx) by lia.
      replace (y + k * dy) with (y + dy + (k - 1) * dy) by lia.
      apply Hall. lia.
    + replace (x + (n + 1) * dx) with (x + dx + n * dx) by lia.
      replace (y + (n + 1) * dy) with (y + dy + n * dy) by lia. done.
Qed.

(** The fuel of [getLineLength] is no restriction: with any larger fuel
    the loop returns the same count. *)
Lemma getLineLength_any_fuel x y fuel :
  (scan_fuel tb ≤ fuel)%nat →
  getLineLength_loop fuel tb player
    (wrap64 (x + dx)) (wrap64 (y + dy)) dx dy 0
  = getLineLength tb player x y dx dy.
Proof.
  intros Hle. destruct (getLineLength_total x y) as [n Hn]. rewrite Hn.
  by apply (getLineLength_loop_fuel _ _ _ _ (scan_fuel tb)).
Qed.
End Scan.

(** A run is determined by the grid. *)
Lemma run_unique g p x y dx dy n m :
  run g p x y dx dy n → run g p x y dx dy m → n = m.
Proof.
  intros (Hn & Hall & Hstop) (Hm & Hall' & Hstop').
  destruct (Z.lt_trichotomy n m) as [Hlt|[->|Hlt]]; [|done|].
  - exfalso. apply Hstop. apply Hall'. lia.
  - exfalso. apply Hstop'. apply Hall. lia.
Qed.

(** ** One direction and the loop over the directions *)

Lemma unit_dir_opp dx dy : unit_dir dx dy → unit_dir (- dx) (- dy).
Proof. unfold unit_dir. lia. Qed.

Lemma DirOffsets_unit d : d ∈ DirOffsets → unit_dir d.1 d.2.
Proof.
  unfold DirOffsets. rewrite !elem_of_cons, elem_of_nil.
  intros [->|[->|[->|[->|[]]]]]; unfold unit_dir; simpl; lia.
Qed.

Lemma steps_opp tb x y dx dy :
  unit_dir dx dy → inb tb x y = true →
  steps tb x y dx dy + steps tb x y (- dx) (- dy)
    ≤ Z.max (width tb) (height tb) + 1.
Proof.
  intros (Hx & Hy & Hnz) [Hbx Hby]%inb_spec. unfold steps.
  destruct (0 <? dx) eqn:E1, (dx <? 0) eqn:E2, (0 <? dy) eqn:E3,
    (0 <? - dx) eqn:E4, (- dx <? 0) eqn:E5, (0 <? - dy) eqn:E6;
    rewrite ?Z.ltb_lt, ?Z.ltb_ge in *; lia.
Qed.

Lemma lineLength_spec tb p x y d :
  Valid tb → unit_dir d.1 d.2 → inb tb x y = true →
  ∃ f b, lineLength tb p x y d = Ret (1 + f + b) ∧
         run (board tb) p x y d.1 d.2 f ∧
         run (board tb) p x y (- d.1) (- d.2) b.
Proof.
  intros Hv Hd Hin. unfold lineLength.
  destruct (getLineLength_run tb p _ _ Hv Hd x y Hin) as (f & -> & Hf & Hfb).
  simpl. pose proof Hd as (Hx & Hy & _).
  rewrite !(wrap64_id (- _))
    by (unfold is_int; rewrite min_int_val, max_int_val; lia).
  destruct (getLineLength_run tb p _ _ Hv (unit_dir_opp _ _ Hd) x y Hin)
    as (b & -> & Hb & Hbb).
  simpl. exists f, b. split; [|done].
  pose proof (steps_opp tb x y _ _ Hd Hin).
  pose proof (Valid_dims _ Hv). destruct Hf as [Hf0 _], Hb as [Hb0 _].
  assert (Hint : ∀ z, 0 ≤ z ≤ 1 + f + b → is_int z).
  { intros z Hz. unfold is_int. rewrite min_int_val, max_int_val in *. lia. }
  rewrite (wrap64_id (1 + f)) by (apply Hint; lia).
  rewrite wrap64_id by (apply Hint; lia). done.
Qed.

Lemma lineLength_qualifies tb p x y d :
  Valid tb → unit_dir d.1 d.2 → inb tb x y = true →
  ∃ n, lineLength tb p x y d = Ret n ∧
       (winLineLength tb ≤ n ↔ qualifies tb p x y d).
Proof.
  intros Hv Hd Hin.
  destruct (lineLength_spec tb p x y d Hv Hd Hin) as (f & b & Hl & Hf & Hb).
  exists (1 + f + b). split; [done|]. split.
  - intros Hle. by exists f, b.
  - intros (f' & b' & Hf' & Hb' & Hle).
    by rewrite (run_unique _ _ _ _ _ _ _ _ Hf Hf'),
               (run_unique _ _ _ _ _ _ _ _ Hb Hb').
Qed.

(** A direction that does not qualify is passed over. *)
Lemma checkDirs_skip tb p x y d rest :
  Valid tb → unit_dir d.1 d.2 → inb tb x y = true →
  ¬ qualifies tb p x y d →
  checkDirs tb p x y (d :: rest) = checkDirs tb p x y rest.
Proof.
  intros Hv Hd Hin Hnq. simpl.
  destruct (lineLength_qualifies tb p x y d Hv Hd Hin) as (n & -> & Hq).
  simpl. rewrite Z.geb_leb.
  destruct (winLineLength tb <=? n) eqn:Hle; [|done].
  apply Z.leb_le in Hle. tauto.
Qed.

(** A direction that qualifies ends the loop: the directions after it are
    not examined. *)
Lemma checkDirs_break tb p x y d rest :
  Valid tb → unit_dir d.1 d.2 → inb tb x y = true →
  qualifies tb p x y d →
  checkDirs tb p x y (d :: rest) = Ret (set_winner tb p).
Proof.
  intros Hv Hd Hin Hq. simpl.
  destruct (lineLength_qualifies tb p x y d Hv Hd Hin) as (n & -> & Hqn).
  simpl. rewrite Z.geb_leb.
  by rewrite (proj2 (Z.leb_le _ _) (proj2 Hqn Hq)).
Qed.

Lemma checkDirs_first tb p x y pre d rest :
  Valid tb → inb tb x y = true →
  Forall (λ e, unit_dir e.1 e.2 ∧ ¬ qualifies tb p x y e) pre →
  unit_dir d.1 d.2 → qualifies tb p x y d →
  checkDirs tb p x y (pre ++ d :: rest) = Ret (set_winner tb p).
Proof.
  intros Hv Hin Hpre Hd Hq. induction Hpre as [|e pre [He Hne] _ IH].
  - by apply checkDirs_break.
  - rewrite <- app_comm_cons, checkDirs_skip by done. exact IH.
Qed.

Lemma checkDirs_spec tb p x y dirs :
  Valid tb → inb tb x y = true → Forall (λ e, unit_dir e.1 e.2) dirs →
  ((∃ d, d ∈ dirs ∧ qualifies tb p x y d) ∧
     checkDirs tb p x y dirs = Ret (set_winner tb p)) ∨
  ((∀ d, d ∈ dirs → ¬ qualifies tb p x y d) ∧
     checkDirs tb p x y dirs = Ret tb).
Proof.
  intros Hv Hin Hdirs. induction Hdirs as [|d dirs Hd _ IH].
  - right. split; [|done]. intros d Hd. by apply elem_of_nil in Hd.
  - destruct (lineLength_qualifies tb p x y d Hv Hd Hin) as (n & Hn & Hqn).
    destruct (decide (winLineLength tb ≤ n)) as [Hle|Hnle].
    + left. split; [exists d; split; [left|tauto]|].
      apply checkDirs_break; tauto.
    + rewrite checkDirs_skip by tauto.
      destruct IH as [[(e & He & Hq) Hc]|[Hnone Hc]].
      * left. split; [|done]. exists e. split; [by right|done].
      * right. split; [|done]. intros e [->|He]%elem_of_cons; [tauto|eauto].
Qed.

Lemma DirOffsets_Forall_unit : Forall (λ e : Z * Z, unit_dir e.1 e.2) DirOffsets.
Proof. apply Forall_forall. intros d Hd. by apply DirOffsets_unit. Qed.

(** ** The guard and the marking of a cell *)

Lemma rejects_spec tb x y :
  Valid tb →
  rejects tb x y =
    Ret (IsGameOver tb || negb (inb tb x y) ||
         negb (default 0 (mark_at (board tb) x y) =? 0) ||
         (freeSpots tb =? 0)).
Proof.
  intros Hv. unfold rejects, orM, notM. simpl.
  destruct (IsGameOver tb); [done|]. rewrite (InBounds_inb _ _ _ Hv). simpl.
  destruct (inb tb x y) eqn:Hin; [|done]. simpl.
  destruct (cell_Ret _ _ _ Hv Hin) as (m & -> & ->). simpl.
  by destruct (m =? 0).
Qed.

Lemma accepted_spec tb x y :
  Valid tb →
  accepted tb x y ↔
    IsGameOver tb = false ∧ inb tb x y = true ∧
    mark_at (board tb) x y = Some 0 ∧ freeSpots tb ≠ 0.
Proof.
  intros Hv. unfold accepted, IsSpotEmpty.
  rewrite (InBounds_inb _ _ _ Hv), (GetMark_spec _ _ _ Hv). simpl. split.
  - intros (Hgo & [= Hin] & [= Hm] & Hf). repeat split; try done.
    destruct (mark_at_inb _ _ _ Hv Hin) as [m Hm']. rewrite Hm' in Hm |- *.
    simpl in Hm. apply Z.eqb_eq in Hm. by subst.
  - intros (Hgo & Hin & Hm & Hf). rewrite Hin, Hm. done.
Qed.

Lemma accepted_rejects tb x y :
  Valid tb → accepted tb x y ↔ rejects tb x y = Ret false.
Proof.
  intros Hv. rewrite (accepted_spec _ _ _ Hv), (rejects_spec _ _ _ Hv). split.
  - intros (-> & -> & -> & Hf). simpl. by apply Z.eqb_neq in Hf as ->.
  - intros [= H]. apply orb_false_elim in H as [H Hf].
    apply orb_false_elim in H as [H Hm]. apply orb_false_elim in H as [Hgo Hin].
    apply negb_false_iff in Hin, Hm. apply Z.eqb_neq in Hf.
    repeat split; try done.
    destruct (mark_at_inb _ _ _ Hv Hin) as [m Hm']. rewrite Hm' in Hm |- *.
    simpl in Hm. apply Z.eqb_eq in Hm. by subst.
Qed.

Lemma not_accepted_rejects tb x y :
  Valid tb → ¬ accepted tb x y ↔ rejects tb x y = Ret true.
Proof.
  intros Hv. rewrite (accepted_rejects _ _ _ Hv), (rejects_spec _ _ _ Hv).
  destruct (_ || _ || _ || _); split; congruence.
Qed.

Lemma hd_insert_length {A} (g : list (list A)) i row row' :
  g !! i = Some row → length row' = length row →
  length (hd [] (<[i := row']> g)) = length (hd [] g).
Proof. destruct g as [|r g], i as [|i]; simpl; congruence. Qed.

Lemma set_cell_spec tb x y p :
  Valid tb → inb tb x y = true →
  set_cell tb x y p = Ret (set_board tb (grid_set (board tb) x y p)).
Proof.
  intros Hv Hin. pose proof Hin as [Hx Hy]%inb_spec. unfold set_cell, grid_set.
  destruct (index_in_range (board tb) y Hy) as (row & -> & Hrow). rewrite Hrow.
  simpl. rewrite store_in_range by (by rewrite (Valid_row _ _ _ Hv Hrow)).
  simpl. by rewrite store_in_range by done.
Qed.

Lemma grid_set_length g x y p : length (grid_set g x y p) = length g.
Proof.
  unfold grid_set. destruct (g !! Z.to_nat y); [|done]. by rewrite length_insert.
Qed.

Lemma grid_set_hd g x y p :
  length (hd [] (grid_set g x y p)) = length (hd [] g).
Proof.
  unfold grid_set. destruct (g !! Z.to_nat y) as [row|] eqn:Hrow; [|done].
  apply (hd_insert_length _ _ row); [done|]. by rewrite length_insert.
Qed.

Lemma grid_set_rect g x y p :
  Forall (λ row, length row = length (hd [] g)) g →
  Forall (λ row, length row = length (hd [] (grid_set g x y p)))
    (grid_set g x y p).
Proof.
  intros Hr. eapply Forall_impl.
  2: { intros row Hrow. rewrite grid_set_hd. exact Hrow. }
  unfold grid_set. destruct (g !! Z.to_nat y) as [row|] eqn:Hrow; [|done].
  apply Forall_insert; [done|]. rewrite length_insert.
  rewrite Forall_lookup in Hr. eauto.
Qed.

Lemma mark_at_grid_set_eq tb x y p :
  Valid tb → inb tb x y = true →
  mark_at (grid_set (board tb) x y p) x y = Some p.
Proof.
  intros Hv Hin. pose proof Hin as [Hx Hy]%inb_spec.
  unfold mark_at, grid_set, height, len in *.
  rewrite (proj2 (Z.leb_le 0 x)), (proj2 (Z.leb_le 0 y)) by lia. simpl.
  destruct (lookup_lt_is_Some_2 (board tb) (Z.to_nat y)) as [row Hrow]; [lia|].
  rewrite Hrow. rewrite list_lookup_insert_eq by lia.
  pose proof (Valid_row _ _ _ Hv Hrow) as Hw. unfold len in Hw.
  apply list_lookup_insert_eq. lia.
Qed.

Lemma mark_at_grid_set_ne g x y p x' y' :
  (x', y') ≠ (x, y) → 0 ≤ x → 0 ≤ y →
  mark_at (grid_set g x y p) x' y' = mark_at g x' y'.
Proof.
  intros Hne Hx Hy. unfold mark_at, grid_set.
  destruct (0 <=? x') eqn:Hx'; [|done]. destruct (0 <=? y') eqn:Hy'; [|done].
  simpl. apply Z.leb_le in Hx', Hy'.
  destruct (g !! Z.to_nat y) as [row|] eqn:Hrow; [|done].
  destruct (decide (y' = y)) as [->|Hny].
  - rewrite Hrow, list_lookup_insert_eq by (by eapply lookup_lt_Some).
    apply list_lookup_insert_ne. intros Heq. apply Hne. f_equal. lia.
  - rewrite list_lookup_insert_ne by lia. done.
Qed.

Lemma Valid_set_board tb x y p n :
  Valid tb → 0 ≤ n ≤ max_int →
  Valid (set_freeSpots (set_board tb (grid_set (board tb) x y p)) n).
Proof.
  intros [Hne Hr Hh Hw Hf] Hn. unfold height, width, len in *.
  constructor; unfold height, width, len; simpl.
  - intros Heq. apply Hne. apply length_zero_iff_nil.
    by rewrite <- (grid_set_length _ x y p), Heq.
  - by apply grid_set_rect.
  - by rewrite grid_set_length.
  - by rewrite grid_set_hd.
  - done.
Qed.

Lemma inb_grid_set tb x y p n x' y' :
  inb (set_freeSpots (set_board tb (grid_set (board tb) x y p)) n) x' y'
  = inb tb x' y'.
Proof.
  unfold inb, width, height, len. simpl.
  by rewrite grid_set_length, grid_set_hd.
Qed.

(** An accepted placement marks the cell and decrements the count. *)
Lemma mark_spec tb x y p :
  Valid tb → accepted tb x y →
  mark tb x y p = Ret (placed tb x y p) ∧ Valid (placed tb x y p).
Proof.
  unfold placed.
  intros Hv (Hgo & Hin & Hm & Hf)%accepted_spec; [|done].
  pose proof (valid_free _ Hv) as Hfree. unfold mark.
  rewrite (set_cell_spec _ _ _ _ Hv Hin). simpl.
  rewrite wrap64_id
    by (unfold is_int; rewrite min_int_val, max_int_val in *; lia).
  split; [done|]. apply Valid_set_board; [done|lia].
Qed.

(** ** [PlaceMove] *)

Lemma qualifies_ext t1 t2 p x y d :
  board t1 = board t2 → winLineLength t1 = winLineLength t2 →
  qualifies t1 p x y d ↔ qualifies t2 p x y d.
Proof. unfold qualifies. by intros -> ->. Qed.

Lemma accepted_not_over tb x y :
  accepted tb x y → winner tb = 0 ∧ tie tb = false.
Proof.
  intros (Hgo & _). unfold IsGameOver in Hgo.
  apply orb_false_elim in Hgo as [-> Hw]. apply negb_false_iff in Hw.
  by apply Z.eqb_eq in Hw.
Qed.

(** A rejected placement returns at the guard. *)
Lemma PlaceMove_rejected tb x y p :
  Valid tb → ¬ accepted tb x y → PlaceMove tb x y p = Ret tb.
Proof.
  intros Hv Hna%not_accepted_rejects; [|done]. unfold PlaceMove.
  by rewrite Hna.
Qed.

(** An accepted placement: the outcome in terms of the marked board. *)
Lemma PlaceMove_accepted tb x y p :
  Valid tb → accepted tb x y →
  ((∃ d, d ∈ DirOffsets ∧ qualifies (placed tb x y p) p x y d) ∧
   PlaceMove tb x y p =
     Ret (if (p =? 0) && (freeSpots tb - 1 =? 0)
          then set_tie (set_winner (placed tb x y p) p) true
          else set_winner (placed tb x y p) p)) ∨
  ((∀ d, d ∈ DirOffsets → ¬ qualifies (placed tb x y p) p x y d) ∧
   PlaceMove tb x y p =
     Ret (if freeSpots tb - 1 =? 0 then set_tie (placed tb x y p) true
          else placed tb x y p)).
Proof.
  intros Hv Hacc. destruct (mark_spec tb x y p Hv Hacc) as [Hmark Hv2].
  destruct (accepted_not_over _ _ _ Hacc) as [Hw Ht].
  pose proof (proj1 (accepted_rejects _ _ _ Hv) Hacc) as Hrej.
  pose proof (proj1 (accepted_spec _ _ _ Hv) Hacc) as (_ & Hin & _).
  assert (Hin2 : inb (placed tb x y p) x y = true)
    by (unfold placed; by rewrite inb_grid_set).
  unfold PlaceMove. rewrite Hrej. cbn [bind]. rewrite Hmark. cbn [bind].
  destruct (checkDirs_spec (placed tb x y p) p x y DirOffsets Hv2 Hin2
              DirOffsets_Forall_unit) as [[Hq ->]|[Hq ->]]; cbn [bind].
  - left. split; [done|]. simpl. by destruct (_ && _).
  - right. split; [done|]. simpl. rewrite Hw. simpl.
    by destruct (_ =? _).
Qed.

Lemma PlaceMove_total tb x y p :
  Valid tb → ∃ tb', PlaceMove tb x y p = Ret tb'.
Proof.
  intros Hv. destruct (rejects tb x y) as [[]| |] eqn:Hrej.
  - exists tb. apply PlaceMove_rejected; [done|].
    by apply not_accepted_rejects.
  - apply accepted_rejects in Hrej; [|done].
    destruct (PlaceMove_accepted tb x y p Hv Hrej) as [[_ ->]|[_ ->]]; eauto.
  - by rewrite rejects_spec in Hrej.
  - by rewrite rejects_spec in Hrej.
Qed.

Lemma Valid_set_winner tb w : Valid tb → Valid (set_winner tb w).
Proof. by intros []. Qed.

Lemma Valid_set_tie tb t : Valid tb → Valid (set_tie tb t).
Proof. by intros []. Qed.

Create HintDb board.
#[local] Hint Resolve Valid_set_winner Valid_set_tie : board.

(** [PlaceMove] keeps the representation invariant. *)
Lemma PlaceMove_Valid tb x y p tb' :
  Valid tb → PlaceMove tb x y p = Ret tb' → Valid tb'.
Proof.
  intros Hv Hpm. destruct (rejects tb x y) as [[]| |] eqn:Hrej.
  - rewrite PlaceMove_rejected in Hpm; [congruence|done|].
    by apply not_accepted_rejects.
  - apply accepted_rejects in Hrej; [|done].
    destruct (mark_spec tb x y p Hv Hrej) as [_ Hv2].
    destruct (PlaceMove_accepted tb x y p Hv Hrej) as [[_ He]|[_ He]];
      rewrite He in Hpm; injection Hpm as <-;
      repeat case_match;
      auto with board.
  - by rewrite rejects_spec in Hrej.
  - by rewrite rejects_spec in Hrej.
Qed.

(** ** Construction *)

Lemma fill_rows_spec w n : 0 ≤ w → 4 * w ≤ 2 ^ 48 →
  ∀ k, Z.of_nat (k + n) ≤ max_int →
    fill_rows n (Z.of_nat k) w
      (replicate k (replicate (Z.to_nat w) 0) ++ replicate n [])
    = Ret (replicate (k + n) (replicate (Z.to_nat w) 0)).
Proof.
  intros Hw Hw4. induction n as [|n IH]; intros k Hk; simpl.
  - by rewrite Nat.add_0_r, app_nil_r.
  - unfold make, maxAlloc. rewrite (proj2 (Z.ltb_ge w 0)) by lia.
    rewrite (proj2 (Z.ltb_ge (2 ^ 48) (4 * w))) by lia. simpl.
    rewrite store_in_range
      by (unfold len; rewrite length_app, !length_replicate; simpl; lia).
    simpl. rewrite Nat2Z.id.
    rewrite insert_app_r_alt by (rewrite length_replicate; lia).
    rewrite length_replicate, Nat.sub_diag. simpl.
    rewrite wrap64_id
      by (unfold is_int; rewrite min_int_val, max_int_val in *; lia).
    replace (Z.of_nat k + 1) with (Z.of_nat (S k)) by lia.
    rewrite cons_middle, app_assoc, <- replicate_S_end.
    rewrite IH by lia. f_equal. f_equal. lia.
Qed.

(** With a non-zero win-line-length and dimensions of at least 1 the
    constructor returns the empty grid. *)
Lemma NewTicTacToeBoard_spec wll w h :
  wll ≠ 0 → 1 ≤ w → 1 ≤ h → 4 * w ≤ 2 ^ 48 → 24 * h ≤ 2 ^ 48 →
  NewTicTacToeBoard wll w h =
    Ret (mkBoard wll (replicate (Z.to_nat h) (replicate (Z.to_nat w) 0))
           (wrap64 (w * h)) 0 false).
Proof.
  intros Hwll Hw Hh Hw4 Hh24. unfold NewTicTacToeBoard.
  rewrite (proj2 (Z.eqb_neq wll 0)) by done.
  rewrite (proj2 (Z.ltb_ge w 1)), (proj2 (Z.ltb_ge h 1)) by lia. simpl.
  unfold make at 1. unfold maxAlloc. rewrite (proj2 (Z.ltb_ge h 0)) by lia.
  rewrite (proj2 (Z.ltb_ge (2 ^ 48) (24 * h))) by lia. cbn [bind orb].
  assert (Hmax : Z.of_nat (0 + Z.to_nat h) ≤ max_int)
    by (rewrite max_int_val; lia).
  pose proof (fill_rows_spec w (Z.to_nat h) ltac:(lia) Hw4 0%nat Hmax) as H.
  cbn [replicate app Nat.add] in H. change (Z.of_nat 0) with 0 in H.
  by rewrite H.
Qed.

Lemma NewTicTacToeBoard_Valid wll w h tb :
  wll ≠ 0 → 1 ≤ w → 1 ≤ h → 4 * w ≤ 2 ^ 48 → 24 * h ≤ 2 ^ 48 →
  w * h ≤ max_int →
  NewTicTacToeBoard wll w h = Ret tb → Valid tb.
Proof.
  intros Hwll Hw Hh Hw4 Hh24 Hwh. rewrite max_int_val in *.
  rewrite NewTicTacToeBoard_spec by done.
  intros [= <-]. rewrite wrap64_id
    by (unfold is_int; rewrite min_int_val, max_int_val; nia).
  constructor; unfold height, width, len; simpl; rewrite ?max_int_val.
  - destruct (Z.to_nat h) eqn:E; [lia|done].
  - apply Forall_replicate. destruct (Z.to_nat h) eqn:E; [lia|]. simpl.
    done.
  - rewrite length_replicate. nia.
  - destruct (Z.to_nat h) eqn:E; [lia|]. simpl. rewrite length_replicate. nia.
  - nia.
Qed.

(** With a non-zero win-line-length and dimensions of at least 1, the
    constructor panics in [make] when the rows or a row exceed the
    allocation limit. *)
Lemma NewTicTacToeBoard_makeslice wll w h :
  wll ≠ 0 → 1 ≤ w → 1 ≤ h → 2 ^ 48 < 24 * h ∨ 2 ^ 48 < 4 * w →
  NewTicTacToeBoard wll w h
  = Panic "runtime error: makeslice: len out of range".
Proof.
  intros Hwll Hw Hh Hbig. unfold NewTicTacToeBoard.
  rewrite (proj2 (Z.eqb_neq wll 0)) by done.
  rewrite (proj2 (Z.ltb_ge w 1)), (proj2 (Z.ltb_ge h 1)) by lia. simpl.
  unfold make at 1. unfold maxAlloc. rewrite (proj2 (Z.ltb_ge h 0)) by lia.
  destruct (2 ^ 48 <? 24 * h) eqn:E; [done|]. apply Z.ltb_ge in E.
  cbn [bind orb]. destruct (Z.to_nat h) as [|n] eqn:Hn; [lia|].
  cbn [fill_rows]. unfold make, maxAlloc.
  rewrite (proj2 (Z.ltb_ge w 0)) by lia.
  by rewrite (proj2 (Z.ltb_lt (2 ^ 48) (4 * w))) by lia.
Qed.

(** ** The free-cell count and the empty cells *)

Lemma filter_zero_insert (row : list rune) i p :
  row !! i = Some 0 → p ≠ 0 →
  S (length (filter (λ m, m = 0) (<[i := p]> row)))
  = length (filter (λ m, m = 0) row).
Proof.
  revert i. induction row as [|m row IH]; intros i Hi Hp; [done|].
  destruct i as [|i]; simpl in *.
  - injection Hi as ->. rewrite filter_cons_False by done.
    by rewrite filter_cons_True by done.
  - destruct (decide (m = 0)) as [->|Hm].
    + rewrite !filter_cons_True by done. simpl. by rewrite IH.
    + rewrite !filter_cons_False by done. by apply IH.
Qed.

Lemma empties_insert (g : list (list rune)) j i row p :
  g !! j = Some row → row !! i = Some 0 → p ≠ 0 →
  S (empties (<[j := <[i := p]> row]> g)) = empties g.
Proof.
  unfold empties. revert j. induction g as [|r g IH]; intros j Hj Hi Hp; [done|].
  destruct j as [|j]; simpl in *.
  - injection Hj as ->. rewrite !filter_app, !length_app.
    pose proof (filter_zero_insert row i p Hi Hp). lia.
  - rewrite !filter_app, !length_app. specialize (IH j Hj Hi Hp). lia.
Qed.

Lemma empties_replicate w h :
  empties (replicate h (replicate w 0)) = (h * w)%nat.
Proof.
  unfold empties. induction h as [|h IH]; [done|].
  cbn [replicate concat]. rewrite filter_app, length_app. rewrite IH.
  cbn [Nat.mul]. f_equal.
  clear IH. induction w as [|w IHw]; [done|]. cbn [replicate].
  rewrite filter_cons_True by done. cbn [length]. by rewrite IHw.
Qed.

(** A freshly constructed board counts its empty cells. *)
Lemma NewTicTacToeBoard_Counted wll w h tb :
  wll ≠ 0 → 1 ≤ w → 1 ≤ h → 4 * w ≤ 2 ^ 48 → 24 * h ≤ 2 ^ 48 →
  w * h ≤ max_int →
  NewTicTacToeBoard wll w h = Ret tb →
  Counted tb ∧ freeSpots tb = w * h.
Proof.
  intros Hwll Hw Hh Hw4 Hh24 Hwh. rewrite max_int_val in *.
  rewrite NewTicTacToeBoard_spec by done.
  intros [= <-]. unfold Counted. simpl. rewrite empties_replicate.
  rewrite wrap64_id
    by (unfold is_int; rewrite min_int_val, max_int_val; nia).
  split; lia.
Qed.

(** Placing players' marks keeps the count exact. *)
Lemma PlaceMove_Counted tb x y p tb' :
  Valid tb → Counted tb → p ≠ 0 →
  PlaceMove tb x y p = Ret tb' → Counted tb'.
Proof.
  intros Hv Hc Hp Hpm. destruct (rejects tb x y) as [[]| |] eqn:Hrej.
  - rewrite PlaceMove_rejected in Hpm; [congruence|done|].
    by apply not_accepted_rejects.
  - apply accepted_rejects in Hrej; [|done].
    pose proof (proj1 (accepted_spec _ _ _ Hv) Hrej) as (_ & Hin & Hm & _).
    apply inb_spec in Hin as [Hx Hy].
    assert (Hplaced : Counted (placed tb x y p)).
    { unfold Counted, placed, grid_set in *. simpl. unfold mark_at in Hm.
      rewrite (proj2 (Z.leb_le 0 x)), (proj2 (Z.leb_le 0 y)) in Hm by lia.
      simpl in Hm.
      destruct (board tb !! Z.to_nat y) as [row|] eqn:Hrow; [|done].
      rewrite Hc, <- (empties_insert _ _ _ _ p Hrow Hm Hp). lia. }
    destruct (PlaceMove_accepted tb x y p Hv Hrej) as [[_ He]|[_ He]];
      rewrite He in Hpm; injection Hpm as <-; repeat case_match; done.
  - by rewrite rejects_spec in Hrej.
  - by rewrite rejects_spec in Hrej.
Qed.

(** ** Runs of the model *)

(** Three marks of X in the bottom row of a 3x3 board win after the third
    placement. *)
Example three_in_a_row :
  (let* tb := NewTicTacToeBoard 3 3 3 in
   let* tb := PlaceMove tb 0 0 88 in
   let* tb := PlaceMove tb 1 0 88 in
   PlaceMove tb 2 0 88)
  = Ret (mkBoard 3 [[88; 88; 88]; [0; 0; 0]; [0; 0; 0]] 6 88 false).
Proof. reflexivity. Qed.

(** On a 1x1 board with win-line-length 1 the single placement wins. *)
Example one_by_one :
  (let* tb := NewTicTacToeBoard 1 1 1 in PlaceMove tb 0 0 79)
  = Ret (mkBoard 1 [[79]] 0 79 false).
Proof. reflexivity. Qed.

(** Filling the last cell without a line is a tie. *)
Example last_cell_tie :
  PlaceMove last_cell 2 2 88
  = Ret (mkBoard 3 [[88; 79; 88]; [88; 79; 79]; [79; 88; 88]] 0 0 true).
Proof. reflexivity. Qed.

(** The [break] is observable in the model: a direction on which the scan
    would never leave the cell is harmless after a qualifying direction and
    exhausts the fuel before it. *)
Example break_skips_later_directions :
  checkDirs (placed two_in_row 2 0 88) 88 2 0 [(1, 0); (0, 0)]
    = Ret (set_winner (placed two_in_row 2 0 88) 88) ∧
  checkDirs (placed two_in_row 2 0 88) 88 2 0 [(0, 0); (1, 0)] = OutOfFuel.
Proof. split; reflexivity. Qed.

(** Every later state of a valid board is valid. *)
Lemma Later_Valid tb tb' : Valid tb → Later tb tb' → Valid tb'.
Proof.
  intros Hv Hl. induction Hl as [|tb1 x y p tb2 _ IH Hpm]; [done|].
  by eapply PlaceMove_Valid.
Qed.

(** The table of directions holds exactly the four vectors. *)
Lemma DirOffsets_four d :
  d ∈ DirOffsets ↔ d = (0, 1) ∨ d = (1, 1) ∨ d = (1, 0) ∨ d = (1, -1).
Proof.
  unfold DirOffsets. rewrite !elem_of_cons, elem_of_nil. tauto.
Qed.

(** ** The claims about the board *)

(** Discharges [Valid] and [accepted] on a concrete board. *)
Ltac concrete_valid :=
  constructor;
  [ done
  | repeat constructor
  | unfold height, len; simpl; rewrite max_int_val; lia
  | unfold width, len; simpl; rewrite max_int_val; lia
  | simpl; rewrite max_int_val; lia ].

Ltac concrete_accepted := repeat split; solve [reflexivity | done].

(** C1. After an accepted placement of a player's mark [p] (a non-zero
    rune) at [(x, y)], the winner is [p] if and only if for one of the four
    direction vectors (0,1), (1,1), (1,0), (1,-1) the total run (the placed
    cell, the run along the direction and the run along its opposite) is
    at least the win-line-length; and the loop over these four directions,
    in this order, ends at the first one that qualifies, whatever
    directions follow it. *)
Theorem PlaceMove_winner tb x y p :
  Valid tb → accepted tb x y → p ≠ 0 →
  ∃ tb', PlaceMove tb x y p = Ret tb' ∧
    board tb' = grid_set (board tb) x y p ∧
    winLineLength tb' = winLineLength tb ∧
    (winner tb' = p ↔
     ∃ d, (d = (0, 1) ∨ d = (1, 1) ∨ d = (1, 0) ∨ d = (1, -1)) ∧
          qualifies tb' p x y d) ∧
    (winner tb' = p ∨ winner tb' = 0) ∧
    (∀ pre d rest rest',
       [(0, 1); (1, 1); (1, 0); (1, -1)] = pre ++ d :: rest →
       (∀ e, e ∈ pre → ¬ qualifies tb' p x y e) →
       qualifies tb' p x y d →
       checkDirs (placed tb x y p) p x y (pre ++ d :: rest')
       = Ret (set_winner (placed tb x y p) p)).
Proof.
  intros Hv Hacc Hp.
  destruct (mark_spec tb x y p Hv Hacc) as [_ Hv2].
  destruct (accepted_not_over _ _ _ Hacc) as [Hw Ht].
  pose proof (proj1 (accepted_spec _ _ _ Hv) Hacc) as (_ & Hin & _).
  assert (Hin2 : inb (placed tb x y p) x y = true)
    by (unfold placed; by rewrite inb_grid_set).
  assert (Hfirst : ∀ tb', board tb' = board (placed tb x y p) →
            winLineLength tb' = winLineLength (placed tb x y p) →
            ∀ pre d rest rest',
              [(0, 1); (1, 1); (1, 0); (1, -1)] = pre ++ d :: rest →
              (∀ e, e ∈ pre → ¬ qualifies tb' p x y e) →
              qualifies tb' p x y d →
              checkDirs (placed tb x y p) p x y (pre ++ d :: rest')
              = Ret (set_winner (placed tb x y p) p)).
  { intros tb' Hb Hl pre d rest rest' Hsplit Hpre Hq.
    change [(0, 1); (1, 1); (1, 0); (1, -1)] with DirOffsets in Hsplit.
    apply checkDirs_first; [done|done| | |].
    - apply Forall_forall. intros e He. split.
      + apply DirOffsets_unit. rewrite Hsplit. apply elem_of_app. by left.
      + rewrite <- (qualifies_ext tb') by done. by apply Hpre.
    - apply DirOffsets_unit. rewrite Hsplit. apply elem_of_app. right. left.
    - by rewrite <- (qualifies_ext tb'). }
  apply Z.eqb_neq in Hp as Hpb.
  destruct (PlaceMove_accepted tb x y p Hv Hacc) as [[Hq He]|[Hq He]];
    rewrite He; rewrite ?Hpb; simpl.
  - eexists. split; [done|]. simpl. split; [done|]. split; [done|].
    split; [|split; [by left|by apply Hfirst]]. split; [|done]. intros _.
    destruct Hq as (d & Hd & Hq). exists d.
    split; [by apply DirOffsets_four|].
    by rewrite (qualifies_ext _ (placed tb x y p)).
  - eexists. split; [done|].
    assert (Hnw : winner tb ≠ p) by (rewrite Hw; congruence).
    destruct (freeSpots tb - 1 =? 0); simpl;
      (split; [done|]; split; [done|];
       split; [|split; [by right|by apply Hfirst]]; split;
       [done|]; intros (d & Hd & Hqd); exfalso;
       apply (Hq d); [by apply DirOffsets_four|];
       exact (proj1 (qualifies_ext _ (placed tb x y p) _ _ _ _
                       eq_refl eq_refl) Hqd)).
Qed.

Lemma PlaceMove_winner_witness :
  ∃ tb', PlaceMove two_in_row 2 0 88 = Ret tb' ∧ winner tb' = 88 ∧
         board tb' = [[88; 88; 88]; [79; 79; 0]; [0; 0; 0]].
Proof.
  destruct (PlaceMove_winner two_in_row 2 0 88)
    as (tb' & Hpm & Hb & Hl & Hw & _).
  - concrete_valid.
  - concrete_accepted.
  - lia.
  - exists tb'. split; [exact Hpm|]. split; [|exact Hb].
    apply Hw. exists (1, 0). split; [right; right; left; reflexivity|].
    exists 0, 2. unfold run. rewrite Hb, Hl.
    split; [|split; [|simpl; lia]].
    + split; [lia|]. split; [intros k Hk; lia|]. vm_compute. discriminate.
    + split; [lia|]. split; [|vm_compute; discriminate].
      intros k Hk. assert (k = 1 ∨ k = 2) as [-> | ->] by lia; reflexivity.
Defined.

(** C2. A placement made when the game is over, outside the bounds, on an
    occupied cell, or when no free cell remains returns with the board
    unchanged and without a panic. *)
Theorem PlaceMove_noop tb x y p :
  Valid tb →
  IsGameOver tb = true ∨ InBounds tb x y = Ret false ∨
    (∃ m, GetMark tb x y = Ret m ∧ m ≠ 0) ∨ freeSpots tb = 0 →
  PlaceMove tb x y p = Ret tb.
Proof.
  intros Hv Hcase. apply PlaceMove_rejected; [done|].
  intros (Hgo & Hin & Hm & Hf)%accepted_spec; [|done].
  destruct Hcase as [Hc|[Hc|[(m & Hc & Hne)|Hc]]].
  - congruence.
  - rewrite InBounds_inb in Hc by done. congruence.
  - rewrite GetMark_spec, Hm in Hc by done. simpl in Hc. congruence.
  - done.
Qed.

Lemma PlaceMove_noop_witness :
  PlaceMove won3 2 2 79 = Ret won3 ∧ PlaceMove empty3 3 (-1) 79 = Ret empty3 ∧
  PlaceMove two_in_row 0 0 79 = Ret two_in_row.
Proof.
  split; [|split].
  - apply PlaceMove_noop; [concrete_valid|]. left. reflexivity.
  - apply PlaceMove_noop; [concrete_valid|]. right. left. reflexivity.
  - apply PlaceMove_noop; [concrete_valid|]. right. right. left.
    exists 88. split; [reflexivity|lia].
Defined.

(** C3 (as the code has it). [IsSpotEmpty] returns true exactly when the
    coordinate is outside the bounds or the cell there holds no mark; so it
    returns true for every out-of-bounds coordinate, and inside the bounds
    it returns true exactly for the unmarked cells. *)
Theorem IsSpotEmpty_spec tb x y :
  Valid tb →
  ∃ b, IsSpotEmpty tb x y = Ret b ∧
    (b = true ↔
       InBounds tb x y = Ret false ∨
       (InBounds tb x y = Ret true ∧ mark_at (board tb) x y = Some 0)) ∧
    (InBounds tb x y = Ret false → b = true) ∧
    (InBounds tb x y = Ret true →
       (b = true ↔ mark_at (board tb) x y = Some 0)).
Proof.
  intros Hv. unfold IsSpotEmpty.
  rewrite (GetMark_spec _ _ _ Hv), (InBounds_inb _ _ _ Hv). simpl.
  eexists. split; [done|]. destruct (inb tb x y) eqn:Hin.
  - destruct (mark_at_inb _ _ _ Hv Hin) as [m ->]. simpl.
    rewrite Z.eqb_eq. split; [|split]; [|done|]; split;
      try (intros ->); try (intros [= ->]); try done; try tauto.
    intros [|[_ [= ->]]]; done.
  - rewrite (mark_at_outside _ _ _ Hv Hin). simpl.
    split; [|split]; [|done|done]. split; [by left|done].
Qed.

Lemma IsSpotEmpty_spec_witness :
  ∃ b, IsSpotEmpty two_in_row 3 0 = Ret b ∧ b = true.
Proof.
  destruct (IsSpotEmpty_spec two_in_row 3 0) as (b & Hb & _ & Hout & _).
  - concrete_valid.
  - exists b. split; [exact Hb|]. apply Hout. reflexivity.
Defined.

(** C3 as stated fails: on the empty 3x3 board, (3, 0) is outside the bounds
    and [IsSpotEmpty] returns true there. *)
Lemma IsSpotEmpty_out_of_bounds :
  InBounds empty3 3 0 = Ret false ∧ IsSpotEmpty empty3 3 0 = Ret true ∧
  ¬ (IsSpotEmpty empty3 3 0 = Ret true ↔
       InBounds empty3 3 0 = Ret true ∧ mark_at (board empty3) 3 0 = Some 0).
Proof.
  split; [reflexivity|]. split; [reflexivity|].
  intros [H _]. destruct (H eq_refl) as [Hin _]. discriminate Hin.
Qed.

(** C4. The constructor does not panic for a negative win-line-length,
    although its panic message asks for [winLineLength > 0]: with -1 and a
    1x1 grid it returns a board, on which the first placement wins. *)
Theorem NewTicTacToeBoard_negative_winLineLength :
  NewTicTacToeBoard (-1) 1 1 = Ret (mkBoard (-1) [[0]] 1 0 false) ∧
  NewTicTacToeBoard 0 1 1 = Panic "winLineLength must be > 0" ∧
  PlaceMove (mkBoard (-1) [[0]] 1 0 false) 0 0 88
    = Ret (mkBoard (-1) [[88]] 0 88 false).
Proof. split; [reflexivity|]. split; reflexivity. Qed.

(** C5. An accepted placement decreases the free-cell count by exactly 1; a
    rejected one leaves it unchanged. *)
Theorem PlaceMove_freeSpots tb x y p :
  Valid tb →
  ∃ tb', PlaceMove tb x y p = Ret tb' ∧
    (accepted tb x y → freeSpots tb' = freeSpots tb - 1) ∧
    (¬ accepted tb x y → freeSpots tb' = freeSpots tb).
Proof.
  intros Hv. destruct (rejects tb x y) as [[]| |] eqn:Hrej.
  - apply not_accepted_rejects in Hrej; [|done]. exists tb.
    split; [by apply PlaceMove_rejected|]. split; [tauto|done].
  - apply accepted_rejects in Hrej; [|done].
    destruct (PlaceMove_accepted tb x y p Hv Hrej) as [[_ ->]|[_ ->]];
      eexists; (split; [done|]); (split; [|tauto]); intros _;
      repeat case_match; done.
  - by rewrite rejects_spec in Hrej.
  - by rewrite rejects_spec in Hrej.
Qed.

Lemma PlaceMove_freeSpots_witness :
  ∃ tb', PlaceMove two_in_row 2 1 79 = Ret tb' ∧ freeSpots tb' = 4.
Proof.
  destruct (PlaceMove_freeSpots two_in_row 2 1 79) as (tb' & Hpm & Hdec & _).
  - concrete_valid.
  - exists tb'. split; [exact Hpm|]. apply Hdec. concrete_accepted.
Defined.

(** C7. An accepted placement of a player's mark that takes the free-cell
    count from 1 to 0 and completes no qualifying run along any of the four
    direction vectors (0,1), (1,1), (1,0), (1,-1) sets the tie flag and
    leaves the winner unset; and the tie flag becomes true only in that
    situation. *)
Theorem PlaceMove_tie tb x y p :
  Valid tb → p ≠ 0 →
  ∃ tb', PlaceMove tb x y p = Ret tb' ∧
    (accepted tb x y → freeSpots tb = 1 →
     (∀ d, d = (0, 1) ∨ d = (1, 1) ∨ d = (1, 0) ∨ d = (1, -1) →
           ¬ qualifies tb' p x y d) →
     tie tb' = true ∧ winner tb' = 0) ∧
    (tie tb = false → tie tb' = true →
     accepted tb x y ∧ freeSpots tb = 1 ∧ winner tb' = 0 ∧
     ∀ d, d = (0, 1) ∨ d = (1, 1) ∨ d = (1, 0) ∨ d = (1, -1) →
          ¬ qualifies tb' p x y d).
Proof.
  intros Hv Hp. apply Z.eqb_neq in Hp as Hpb.
  destruct (rejects tb x y) as [[]| |] eqn:Hrej.
  - apply not_accepted_rejects in Hrej; [|done]. exists tb.
    split; [by apply PlaceMove_rejected|]. split; [tauto|congruence].
  - apply accepted_rejects in Hrej; [|done].
    destruct (accepted_not_over _ _ _ Hrej) as [Hw Ht].
    destruct (PlaceMove_accepted tb x y p Hv Hrej) as [[Hq ->]|[Hq ->]];
      rewrite ?Hpb; simpl.
    + eexists. split; [done|]. simpl. split.
      * intros _ _ Hnone. destruct Hq as (d & Hd & Hq).
        destruct (Hnone d); [by apply DirOffsets_four|].
        exact (proj2 (qualifies_ext _ (placed tb x y p) _ _ _ _
                        eq_refl eq_refl) Hq).
      * congruence.
    + eexists. split; [done|]. split.
      * intros _ ->. simpl. done.
      * destruct (freeSpots tb - 1 =? 0) eqn:Hf; simpl; [|congruence].
        intros _ _. apply Z.eqb_eq in Hf. split; [done|]. split; [lia|].
        split; [done|].
        intros d Hd Hqd. apply (Hq d); [by apply DirOffsets_four|].
        exact (proj1 (qualifies_ext _ (placed tb x y p) _ _ _ _
                        eq_refl eq_refl) Hqd).
  - by rewrite rejects_spec in Hrej.
  - by rewrite rejects_spec in Hrej.
Qed.

Lemma PlaceMove_tie_witness :
  ∃ tb', PlaceMove last_cell 2 2 88 = Ret tb' ∧ tie tb' = true ∧
         winner tb' = 0 ∧
         ∀ d, d = (0, 1) ∨ d = (1, 1) ∨ d = (1, 0) ∨ d = (1, -1) →
              ¬ qualifies tb' 88 2 2 d.
Proof.
  destruct (PlaceMove_tie last_cell 2 2 88) as (tb' & Hpm & _ & Honly).
  - concrete_valid.
  - lia.
  - assert (Htie : tie tb' = true).
    { vm_compute in Hpm. injection Hpm as <-. reflexivity. }
    exists tb'. split; [exact Hpm|]. split; [exact Htie|].
    destruct (Honly eq_refl Htie) as (_ & _ & Hw & Hnone).
    split; [exact Hw|exact Hnone].
Defined.

(** C9. On every valid board and for all integer coordinates, [InBounds],
    [GetMark], [PlaceMove] and the run-length scan return a value: no access
    to the grid is out of range, however large or negative the
    coordinates. *)
Theorem grid_access_in_range tb x y p :
  Valid tb →
  (∃ b, InBounds tb x y = Ret b) ∧
  (∃ m, GetMark tb x y = Ret m) ∧
  (∃ tb', PlaceMove tb x y p = Ret tb') ∧
  (∀ dx dy, unit_dir dx dy → ∃ n, getLineLength tb p x y dx dy = Ret n).
Proof.
  intros Hv. split; [|split; [|split]].
  - rewrite InBounds_inb by done. eauto.
  - rewrite GetMark_spec by done. eauto.
  - by apply PlaceMove_total.
  - intros dx dy Hd. by apply getLineLength_total.
Qed.

Lemma grid_access_in_range_witness :
  (∃ b, InBounds two_in_row (2 ^ 63 - 1) (- 2 ^ 63) = Ret b) ∧
  (∃ m, GetMark two_in_row (2 ^ 63 - 1) (- 2 ^ 63) = Ret m) ∧
  (∃ tb', PlaceMove two_in_row (2 ^ 63 - 1) (- 2 ^ 63) 88 = Ret tb').
Proof.
  destruct (grid_access_in_range two_in_row (2 ^ 63 - 1) (- 2 ^ 63) 88)
    as (Hb & Hm & Hpm & _).
  - concrete_valid.
  - split; [exact Hb|]. split; [exact Hm|exact Hpm].
Defined.

(** ** Reachable states *)

Lemma NewTicTacToeBoard_fresh wll w h tb :
  NewTicTacToeBoard wll w h = Ret tb → winner tb = 0 ∧ tie tb = false.
Proof.
  unfold NewTicTacToeBoard. destruct (wll =? 0); [done|].
  destruct ((w <? 1) || (h <? 1)); [done|].
  destruct (make 24 [] h); [|done..]. cbn [bind].
  destruct (fill_rows _ _ _ _); [|done..]. cbn [bind]. by intros [= <-].
Qed.

Lemma mark_flags tb x y p tb2 :
  mark tb x y p = Ret tb2 → winner tb2 = winner tb ∧ tie tb2 = tie tb.
Proof.
  unfold mark, set_cell. destruct (index (board tb) y); [|done..]. cbn [bind].
  destruct (store _ x p); [|done..]. cbn [bind].
  destruct (store (board tb) y _); [|done..]. cbn [bind]. by intros [= <-].
Qed.

Lemma checkDirs_flags tb p x y dirs tb3 :
  checkDirs tb p x y dirs = Ret tb3 → tb3 = tb ∨ tb3 = set_winner tb p.
Proof.
  induction dirs as [|d dirs IH]; simpl.
  - intros [= <-]. by left.
  - destruct (lineLength tb p x y d); [|done..]. cbn [bind].
    destruct (_ >=? _); [|done]. intros [= <-]. by right.
Qed.

Lemma PlaceMove_game_over tb x y p :
  IsGameOver tb = true → PlaceMove tb x y p = Ret tb.
Proof. intros Hgo. unfold PlaceMove, rejects, orM. simpl. by rewrite Hgo. Qed.

(** Whatever the board, a placement that returns leaves it as it was or was
    made while the game was not over; the tie flag is then set only with no
    winner. *)
Lemma PlaceMove_flags tb x y p tb' :
  PlaceMove tb x y p = Ret tb' →
  tb' = tb ∨
  (IsGameOver tb = false ∧ (tie tb' = true → winner tb' = 0)).
Proof.
  destruct (IsGameOver tb) eqn:Hgo.
  { rewrite PlaceMove_game_over by done. intros [= <-]. by left. }
  unfold PlaceMove. destruct (rejects tb x y) as [[]| |]; cbn [bind];
    [intros [= <-]; by left| |done..].
  destruct (mark tb x y p) as [tb2| |] eqn:Hmark; [|done..]. cbn [bind].
  destruct (checkDirs tb2 p x y DirOffsets) as [tb3| |] eqn:Hc; [|done..].
  cbn [bind]. apply mark_flags in Hmark as [Hw2 Ht2].
  unfold IsGameOver in Hgo. apply orb_false_elim in Hgo as [Ht Hw].
  intros Hfin. right. split; [done|].
  destruct (winner tb3 =? 0) eqn:Hw3; simpl in Hfin.
  - apply Z.eqb_eq in Hw3. destruct (freeSpots tb3 =? 0);
      injection Hfin as <-; done.
  - injection Hfin as <-.
    apply checkDirs_flags in Hc as [->| ->]; simpl; congruence.
Qed.

(** C6. In every state reachable from a freshly constructed board the
    winner and the tie flag are not both set; and once the game is over
    (either is set), every later state is the same state, so neither
    changes. *)
Theorem winner_tie_exclusive tb :
  Reachable tb →
  ¬ (winner tb ≠ 0 ∧ tie tb = true) ∧
  (IsGameOver tb = true →
   ∀ tb', Later tb tb' → winner tb' = winner tb ∧ tie tb' = tie tb ∧ tb' = tb).
Proof.
  intros Hr. split.
  - induction Hr as [wll w h tb Hnew|tb x y p tb' _ IH Hpm].
    + apply NewTicTacToeBoard_fresh in Hnew as [-> _]. tauto.
    + apply PlaceMove_flags in Hpm as [->|[_ Hex]]; [done|]. tauto.
  - intros Hgo tb' Hl. induction Hl as [|tb1 x y p tb2 _ IH Hpm]; [done|].
    destruct IH as (_ & _ & ->).
    rewrite PlaceMove_game_over in Hpm by done. by injection Hpm as <-.
Qed.

Ltac play H x y p :=
  match type of H with
  | Reachable ?tb =>
      let r := eval vm_compute in (PlaceMove tb x y p) in
      match r with
      | Ret ?tb' =>
          let H' := fresh in
          assert (H' : Reachable tb')
            by (apply (reach_move tb x y p); [exact H|vm_compute; reflexivity]);
          clear H; rename H' into H
      end
  end.

Lemma winner_tie_exclusive_witness :
  ¬ (winner won3 ≠ 0 ∧ tie won3 = true) ∧
  ∀ tb', Later won3 tb' → winner tb' = 88 ∧ tie tb' = false ∧ tb' = won3.
Proof.
  assert (Hr : Reachable empty3)
    by (apply (reach_new 3 3 3); vm_compute; reflexivity).
  play Hr 0 0 88. play Hr 0 1 79. play Hr 1 0 88. play Hr 1 1 79.
  play Hr 2 0 88.
  destruct (winner_tie_exclusive won3 Hr) as [Hex Hstable].
  split; [exact Hex|]. apply Hstable. reflexivity.
Defined.

(** ** The duplicate-line counter *)

Lemma occurrences_nonneg l ts : 0 ≤ occurrences l ts.
Proof. induction ts as [|t ts IH]; simpl; [done|]. case_decide; lia. Qed.

Lemma occurrences_le_len l ts : occurrences l ts ≤ len ts.
Proof.
  unfold len. induction ts as [|t ts IH]; simpl; [done|]. case_decide; lia.
Qed.

Lemma occurrences_app l ts us :
  occurrences l (ts ++ us) = occurrences l ts + occurrences l us.
Proof. induction ts as [|t ts IH]; simpl; [done|]. rewrite IH. lia. Qed.

Lemma count_loop_app ts us (m : gmap string Z) :
  count_loop (ts ++ us) m = count_loop us (count_loop ts m).
Proof. revert m. induction ts as [|t ts IH]; intros m; simpl; [done|]. apply IH. Qed.

(** What the loop records for a line, from any initial map. *)
Lemma count_loop_lookup ts : ∀ (m : gmap string Z) l,
  count_loop ts m !! l =
    if decide (occurrences l ts = 0) then m !! l
    else Some (wrap64 (default 0 (m !! l) + occurrences l ts)).
Proof.
  induction ts as [|t ts IH]; intros m l; simpl; [done|].
  rewrite IH. pose proof (occurrences_nonneg l ts).
  destruct (decide (t = l)) as [->|Hne].
  - rewrite lookup_insert_eq. simpl.
    rewrite (decide_False (P := 1 + _ = 0)) by lia.
    case_decide as Hz.
    + rewrite Hz. by rewrite !Z.add_0_r.
    + rewrite wrap64_add_l. do 2 f_equal. lia.
  - rewrite lookup_insert_ne by done. rewrite Z.add_0_l. done.
Qed.

Lemma count_loop_empty ts l :
  len ts ≤ max_int →
  count_loop ts ∅ !! l =
    if decide (occurrences l ts = 0) then None else Some (occurrences l ts).
Proof.
  intros Hlen. rewrite count_loop_lookup, lookup_empty. simpl.
  case_decide; [done|]. f_equal. apply wrap64_id.
  pose proof (occurrences_nonneg l ts). pose proof (occurrences_le_len l ts).
  unfold is_int. rewrite min_int_val. lia.
Qed.

Section Files.
(** The file system: what [os.Open] gives for a name. *)
Variable Open : string → string + list string.

(** The file loop counts the lines of the files that open and records one
    message for each file that does not. *)
Lemma open_loop_spec files : ∀ (m : gmap string Z) errs,
  (open_loop Open files m errs).1 = count_loop (lines_of Open files) m.
Proof.
  induction files as [|arg files IH]; intros m errs; simpl; [done|].
  destruct (Open arg) as [e|ls]; rewrite IH; unfold countLines; simpl; [done|].
  by rewrite count_loop_app.
Qed.

Lemma open_loop_errs_mono files : ∀ (m : gmap string Z) errs msg,
  msg ∈ errs → msg ∈ (open_loop Open files m errs).2.
Proof.
  induction files as [|arg files IH]; intros m errs msg Hin; simpl; [done|].
  destruct (Open arg) as [e|ls]; apply IH; [|done].
  apply elem_of_app. by left.
Qed.

Lemma open_loop_errs files a e : ∀ (m : gmap string Z) errs,
  a ∈ files → Open a = inl e →
  open_error e ∈ (open_loop Open files m errs).2.
Proof.
  induction files as [|arg files IH]; intros m errs Hin Ha.
  { by apply elem_of_nil in Hin. }
  simpl. apply elem_of_cons in Hin as [<-|Hin].
  - rewrite Ha. apply open_loop_errs_mono. apply elem_of_app. right. by left.
  - destruct (Open arg); by apply IH.
Qed.

Lemma main_counts_spec stdin files :
  (main_counts Open stdin files).1
  = count_loop (input_lines Open stdin files) ∅.
Proof.
  unfold main_counts, input_lines. destruct files as [|arg files]; [done|].
  apply open_loop_spec.
Qed.

Lemma lines_of_app fs gs :
  lines_of Open (fs ++ gs) = lines_of Open fs ++ lines_of Open gs.
Proof.
  induction fs as [|f fs IH]; simpl; [done|].
  destruct (Open f); [done|]. by rewrite IH, app_assoc.
Qed.

Lemma lines_of_failed pre a post e :
  Open a = inl e →
  lines_of Open (pre ++ a :: post) = lines_of Open (pre ++ post).
Proof. intros Ha. rewrite !lines_of_app. simpl. by rewrite Ha. Qed.

End Files.

Lemma elem_of_print_loop entries n l :
  (n, l) ∈ print_loop entries ↔ (l, n) ∈ entries ∧ 1 < n.
Proof.
  induction entries as [|[l' n'] entries IH]; simpl.
  - rewrite !elem_of_nil. tauto.
  - destruct (n' >? 1) eqn:Hgt; rewrite Z.gtb_ltb in Hgt.
    + apply Z.ltb_lt in Hgt. rewrite !elem_of_cons, IH. split.
      * intros [[= -> ->]|[H1 H2]]; [by split; [left|]|by split; [right|]].
      * intros [[[= -> ->]|H1] H2]; [by left|by right].
    + apply Z.ltb_ge in Hgt. rewrite elem_of_cons, IH. split.
      * intros [H1 H2]. by split; [right|].
      * intros [[[= -> ->]|H1] H2]; [lia|done].
Qed.

(** *** The Scanner *)

Lemma string_length_app s t :
  String.length (s +:+ t) = (String.length s + String.length t)%nat.
Proof. induction s as [|c s IH]; simpl; [done|]. by rewrite IH. Qed.

Lemma dropCR_snoc s : dropCR (s +:+ String "013"%char EmptyString) = s.
Proof.
  induction s as [|c s IH]; [done|].
  change (String c s +:+ String "013"%char EmptyString)
    with (String c (s +:+ String "013"%char EmptyString)).
  cbn [dropCR]. rewrite IH. by destruct s.
Qed.

(** A line that [dropCR] leaves alone does not end in a carriage return. *)
Lemma dropCR_fixed l :
  dropCR l = l → ∀ s, l ≠ s +:+ String "013"%char EmptyString.
Proof.
  intros Hl s ->. rewrite dropCR_snoc in Hl.
  apply (f_equal String.length) in Hl. rewrite string_length_app in Hl.
  simpl in Hl. lia.
Qed.

Lemma dropCR_plain l :
  (∀ s, l ≠ s +:+ String "013"%char EmptyString) → dropCR l = l.
Proof.
  induction l as [|c l IH]; intros Hl; [done|]. cbn [dropCR].
  destruct l as [|c' l'].
  - destruct (Ascii.eqb_spec c "013"%char) as [->|]; [|done].
    by destruct (Hl EmptyString).
  - rewrite IH; [done|]. intros s Hs. apply (Hl (String c s)).
    simpl. by rewrite Hs.
Qed.

(** Lines that are all plain are passed on as they are. *)
Lemma scan_plain ls : Forall plain ls → scan ls = ls.
Proof.
  induction 1 as [|l ls [Hlen Hcr] _ IH]; [done|]. cbn [scan].
  unfold MaxScanTokenSize. rewrite Z.geb_leb.
  rewrite (proj2 (Z.leb_gt _ _)) by lia. by rewrite dropCR_plain, IH.
Qed.

(** Nothing is passed on from the first line of 65536 bytes or more. *)
Lemma scan_long pre long rest :
  Forall plain pre → 65536 ≤ Z.of_nat (String.length long) →
  scan (pre ++ long :: rest) = pre.
Proof.
  intros Hpre Hlong. induction Hpre as [|l ls [Hlen Hcr] _ IH].
  - cbn [app scan]. unfold MaxScanTokenSize. rewrite Z.geb_leb.
    by rewrite (proj2 (Z.leb_le _ _)) by lia.
  - rewrite <- app_comm_cons. cbn [scan]. unfold MaxScanTokenSize.
    rewrite Z.geb_leb. rewrite (proj2 (Z.leb_gt _ _)) by lia.
    by rewrite dropCR_plain, IH.
Qed.

Lemma lines_of_plain Open files :
  (∀ arg ls, arg ∈ files → Open arg = inr ls → Forall plain ls) →
  lines_of Open files = file_lines Open files.
Proof.
  induction files as [|f files IH]; intros Hall; [done|]. simpl.
  destruct (Open f) as [e|ls] eqn:Hf.
  - apply IH. intros arg ls Harg. apply Hall. by right.
  - rewrite scan_plain by (apply (Hall f); [by left|done]).
    f_equal. apply IH. intros arg ls' Harg. apply Hall. by right.
Qed.

(** Discharges [plain] for a concrete line. *)
Ltac concrete_plain :=
  repeat constructor; try (simpl; lia); by apply dropCR_fixed.

(** C8 (as the code has it). After [main] has processed its input line by
    line, the count recorded for a line is the number of its occurrences
    among the lines the Scanner yields (lines that do not occur there have
    no entry), and a line is printed, with its count, if and only if that
    count is greater than 1. The Scanner yields the lines of standard
    input (or of each file) up to the first line of 65536 bytes or more,
    each without a trailing carriage return: when all lines are shorter
    and none ends in a carriage return these are exactly the lines of the
    input, and nothing after a line of 65536 bytes or more is counted. *)
Theorem dup_counts Open stdin files out errs :
  len (input_lines Open stdin files) ≤ max_int →
  main Open stdin files out errs →
  (∀ l, (main_counts Open stdin files).1 !! l =
          if decide (occurrences l (input_lines Open stdin files) = 0)
          then None
          else Some (occurrences l (input_lines Open stdin files))) ∧
  (∀ l n, (n, l) ∈ out ↔
          (main_counts Open stdin files).1 !! l = Some n ∧ 1 < n) ∧
  (∀ l, (∃ n, (n, l) ∈ out) ↔
        1 < occurrences l (input_lines Open stdin files)) ∧
  (files = [] →
   ∀ pre rest, stdin = pre ++ rest → Forall plain pre →
     rest = [] ∨
       (∃ long rest', rest = long :: rest' ∧
                      65536 ≤ Z.of_nat (String.length long)) →
     input_lines Open stdin files = pre) ∧
  (files ≠ [] →
   (∀ arg ls, arg ∈ files → Open arg = inr ls → Forall plain ls) →
   input_lines Open stdin files = file_lines Open files).
Proof.
  intros Hlen (entries & Hrange & -> & _).
  assert (Hcounts : ∀ l, (main_counts Open stdin files).1 !! l =
          if decide (occurrences l (input_lines Open stdin files) = 0)
          then None
          else Some (occurrences l (input_lines Open stdin files))).
  { intros l. rewrite main_counts_spec. by apply count_loop_empty. }
  assert (Hout : ∀ l n, (n, l) ∈ print_loop entries ↔
          (main_counts Open stdin files).1 !! l = Some n ∧ 1 < n).
  { intros l n. rewrite elem_of_print_loop. unfold range_of in Hrange.
    rewrite Hrange. by rewrite elem_of_map_to_list. }
  split; [done|]. split; [done|]. split; [|split].
  - intros l. split.
    + intros (n & [Hl Hn]%Hout). rewrite Hcounts in Hl.
      case_decide; [done|]. by injection Hl as ->.
    + intros Hocc. eexists. apply Hout. rewrite Hcounts.
      rewrite decide_False by lia. done.
  - intros -> pre rest -> Hpre [->|(long & rest' & -> & Hlong)];
      unfold input_lines, tokens.
    + rewrite app_nil_r. by apply scan_plain.
    + by apply scan_long.
  - intros Hne Hall. unfold input_lines. destruct files as [|f fs]; [done|].
    by apply lines_of_plain.
Qed.

Lemma dup_counts_witness :
  (2, "a") ∈ print_loop (map_to_list (main_counts example_open ["a"; "b"; "a"] []).1) ∧
  ¬ (∃ n, (n, "b") ∈
            print_loop (map_to_list (main_counts example_open ["a"; "b"; "a"] []).1)) ∧
  input_lines example_open ["a"; "b"; "a"] [] = ["a"; "b"; "a"].
Proof.
  destruct (dup_counts example_open ["a"; "b"; "a"] []
              (print_loop (map_to_list (main_counts example_open ["a"; "b"; "a"] []).1))
              (main_counts example_open ["a"; "b"; "a"] []).2)
    as (Hcounts & Hout & Hprinted & Hstdin & _).
  - unfold len. simpl. rewrite max_int_val. lia.
  - exists (map_to_list (main_counts example_open ["a"; "b"; "a"] []).1).
    split; [unfold range_of; reflexivity|]. split; reflexivity.
  - split; [|split].
    + apply Hout. split; [|lia]. rewrite Hcounts. reflexivity.
    + intros Hb%Hprinted. vm_compute in Hb. discriminate Hb.
    + apply (Hstdin eq_refl ["a"; "b"; "a"] []); [reflexivity| |by left].
      concrete_plain.
Defined.

(** C8 as stated fails: after a line of 65536 bytes the two occurrences of
    the line "x" are not counted, and nothing is printed. *)
Lemma dup_long_line_uncounted :
  occurrences "x" [long_line; "x"; "x"] = 2 ∧
  (main_counts example_open [long_line; "x"; "x"] []).1 !! "x" = None ∧
  print_loop (map_to_list (main_counts example_open [long_line; "x"; "x"] []).1)
  = [] ∧
  ¬ ((main_counts example_open [long_line; "x"; "x"] []).1 !! "x"
     = Some (occurrences "x" [long_line; "x"; "x"])).
Proof.
  assert (Hscan : scan [long_line; "x"; "x"] = []) by (vm_compute; reflexivity).
  assert (Hcounts : (main_counts example_open [long_line; "x"; "x"] []).1 = ∅).
  { unfold main_counts, countLines, tokens. by rewrite Hscan. }
  rewrite Hcounts. split; [vm_compute; reflexivity|].
  split; [apply lookup_empty|]. split; [by rewrite map_to_list_empty|].
  by rewrite lookup_empty.
Qed.

(** C10. When a named file does not open, [main] writes the line
    "dup: <error>" to standard error and goes on with the other files; the
    counts are those of the lines of the other files, the same as when the
    failed file is not listed (other files being listed). *)
Theorem dup_open_failure Open stdin pre a post e :
  Open a = inl e →
  ("dup: " +:+ e +:+ String "010"%char EmptyString)
    ∈ (main_counts Open stdin (pre ++ a :: post)).2 ∧
  (main_counts Open stdin (pre ++ a :: post)).1
    = count_loop (lines_of Open (pre ++ post)) ∅ ∧
  (pre ++ post ≠ [] →
   (main_counts Open stdin (pre ++ a :: post)).1
     = (main_counts Open stdin (pre ++ post)).1).
Proof.
  intros Ha.
  assert (Hne : ∃ f fs, pre ++ a :: post = f :: fs)
    by (destruct pre; simpl; eauto).
  destruct Hne as (f & fs & Hfs).
  assert (Hc : (main_counts Open stdin (pre ++ a :: post)).1
               = count_loop (lines_of Open (pre ++ post)) ∅).
  { rewrite main_counts_spec. unfold input_lines. rewrite Hfs, <- Hfs.
    by rewrite (lines_of_failed _ _ _ _ _ Ha). }
  split; [|split; [done|]].
  - unfold main_counts. rewrite Hfs, <- Hfs.
    apply (open_loop_errs _ _ a); [|done].
    apply elem_of_app. right. by left.
  - intros Hrest. rewrite Hc, main_counts_spec. unfold input_lines.
    by destruct (pre ++ post).
Qed.

Lemma dup_open_failure_witness :
  ("dup: open missing.txt: no such file or directory"
     +:+ String "010"%char EmptyString)
    ∈ (main_counts example_open [] ["a.txt"; "missing.txt"; "b.txt"]).2 ∧
  (main_counts example_open [] ["a.txt"; "missing.txt"; "b.txt"]).1
  = (main_counts example_open [] ["a.txt"; "b.txt"]).1 ∧
  (main_counts example_open [] ["a.txt"; "missing.txt"; "b.txt"]).1 !! "x"
  = Some 4.
Proof.
  destruct (dup_open_failure example_open [] ["a.txt"] "missing.txt" ["b.txt"]
              "open missing.txt: no such file or directory")
    as (Hmsg & Hcounts & Hsame).
  - reflexivity.
  - split; [exact Hmsg|]. split; [apply Hsame; simpl; discriminate|].
    etrans; [exact (f_equal (λ m : gmap string Z, m !! "x") Hcounts)|].
    rewrite count_loop_lookup. reflexivity.
Defined.


(** * Further properties of the board *)

(** What a placement does to the fields, on a valid board. *)
Lemma PlaceMove_cases tb x y p tb' :
  Valid tb → PlaceMove tb x y p = Ret tb' →
  (¬ accepted tb x y ∧ tb' = tb) ∨
  (accepted tb x y ∧
   board tb' = grid_set (board tb) x y p ∧
   winLineLength tb' = winLineLength tb ∧
   freeSpots tb' = freeSpots tb - 1 ∧
   (winner tb' = 0 ∨ winner tb' = p)).
Proof.
  intros Hv Hpm. destruct (rejects tb x y) as [[]| |] eqn:Hrej.
  - apply not_accepted_rejects in Hrej; [|done]. left. split; [done|].
    rewrite PlaceMove_rejected in Hpm by done. congruence.
  - apply accepted_rejects in Hrej; [|done]. right. split; [done|].
    destruct (accepted_not_over _ _ _ Hrej) as [Hw Ht].
    destruct (PlaceMove_accepted tb x y p Hv Hrej) as [[_ He]|[_ He]];
      rewrite He in Hpm; injection Hpm as <-;
      repeat case_match; simpl; auto.
  - by rewrite rejects_spec in Hrej.
  - by rewrite rejects_spec in Hrej.
Qed.

Lemma width_grid_set tb tb' x y p :
  board tb' = grid_set (board tb) x y p →
  width tb' = width tb ∧ height tb' = height tb.
Proof.
  intros Hb. unfold width, height, len.
  by rewrite Hb, grid_set_hd, grid_set_length.
Qed.

Lemma PlaceMove_dims tb x y p tb' :
  Valid tb → PlaceMove tb x y p = Ret tb' →
  width tb' = width tb ∧ height tb' = height tb ∧
  winLineLength tb' = winLineLength tb.
Proof.
  intros Hv Hpm.
  destruct (PlaceMove_cases _ _ _ _ _ Hv Hpm) as [[_ ->]|(_ & Hb & Hl & _)];
    [done|].
  destruct (width_grid_set _ _ _ _ _ Hb). done.
Qed.

Lemma mark_at_placed tb x y p x' y' :
  Valid tb → inb tb x y = true →
  mark_at (grid_set (board tb) x y p) x' y'
  = if decide ((x', y') = (x, y)) then Some p else mark_at (board tb) x' y'.
Proof.
  intros Hv Hin. case_decide as Heq.
  - injection Heq as -> ->. by apply mark_at_grid_set_eq.
  - apply inb_spec in Hin as [Hx Hy]. apply mark_at_grid_set_ne; [done|lia..].
Qed.

(** X1. The constructor panics with its first message exactly for a zero
    win-line-length, with its second message exactly for a non-zero
    win-line-length and a dimension below 1, and in [make] exactly when,
    those tests passed, the row table (24 bytes a row) or a row (4 bytes a
    cell) exceeds 2^48 bytes; it returns a board in every other case, a
    negative win-line-length included. *)
Theorem NewTicTacToeBoard_outcomes wll w h :
  (NewTicTacToeBoard wll w h = Panic "winLineLength must be > 0" ↔ wll = 0) ∧
  (NewTicTacToeBoard wll w h
     = Panic "boardWidth must be >= 1 and boardHeight must be >= 1"
   ↔ wll ≠ 0 ∧ (w < 1 ∨ h < 1)) ∧
  (NewTicTacToeBoard wll w h
     = Panic "runtime error: makeslice: len out of range"
   ↔ wll ≠ 0 ∧ 1 ≤ w ∧ 1 ≤ h ∧ (2 ^ 48 < 24 * h ∨ 2 ^ 48 < 4 * w)) ∧
  ((∃ tb, NewTicTacToeBoard wll w h = Ret tb)
   ↔ wll ≠ 0 ∧ 1 ≤ w ∧ 1 ≤ h ∧ 24 * h ≤ 2 ^ 48 ∧ 4 * w ≤ 2 ^ 48).
Proof.
  destruct (decide (wll = 0)) as [->|Hwll].
  { unfold NewTicTacToeBoard. simpl. split; [done|]. split; [|split].
    - split; [done|tauto].
    - split; [done|tauto].
    - split; [by intros [tb ?]|tauto]. }
  destruct (decide (w < 1 ∨ h < 1)) as [Hd|Hd].
  { assert (NewTicTacToeBoard wll w h
            = Panic "boardWidth must be >= 1 and boardHeight must be >= 1")
      as ->.
    { unfold NewTicTacToeBoard. rewrite (proj2 (Z.eqb_neq wll 0)) by done.
      assert ((w <? 1) || (h <? 1) = true) as ->; [|done].
      apply orb_true_iff. by rewrite !Z.ltb_lt. }
    split; [done|]. split; [done|]. split.
    - split; [done|lia].
    - split; [by intros [tb ?]|lia]. }
  destruct (decide (2 ^ 48 < 24 * h ∨ 2 ^ 48 < 4 * w)) as [Hbig|Hfit].
  { rewrite NewTicTacToeBoard_makeslice by (done || lia).
    split; [done|]. split; [split; [done|tauto]|]. split.
    - split; [lia|done].
    - split; [by intros [tb ?]|lia]. }
  rewrite NewTicTacToeBoard_spec by lia.
  split; [done|]. split; [split; [done|tauto]|]. split.
  - split; [done|lia].
  - split; [lia|eauto].
Qed.

Lemma NewTicTacToeBoard_outcomes_witness :
  NewTicTacToeBoard 0 3 3 = Panic "winLineLength must be > 0" ∧
  NewTicTacToeBoard 3 0 3
    = Panic "boardWidth must be >= 1 and boardHeight must be >= 1" ∧
  NewTicTacToeBoard 3 (2 ^ 62) 1
    = Panic "runtime error: makeslice: len out of range" ∧
  ∃ tb, NewTicTacToeBoard (-2) 3 3 = Ret tb.
Proof.
  destruct (NewTicTacToeBoard_outcomes 0 3 3) as (H0 & _).
  destruct (NewTicTacToeBoard_outcomes 3 0 3) as (_ & H1 & _).
  destruct (NewTicTacToeBoard_outcomes 3 (2 ^ 62) 1) as (_ & _ & H2 & _).
  destruct (NewTicTacToeBoard_outcomes (-2) 3 3) as (_ & _ & _ & H3).
  split; [apply H0; reflexivity|]. split; [apply H1; lia|].
  split; [apply H2; lia|apply H3; lia].
Defined.

(** X2. A board constructed with a non-zero win-line-length and dimensions
    of at least 1 that [make] accepts (a row of at most 2^48 bytes, a row
    table of at most 2^48 bytes) and whose product fits an [int] has the
    requested dimensions, is valid, has no mark anywhere, counts
    width x height free cells, is not over, and its bounds are exactly
    [0 <= x < width] and [0 <= y < height]. *)
Theorem NewTicTacToeBoard_fresh_board wll w h :
  wll ≠ 0 → 1 ≤ w → 1 ≤ h → 4 * w ≤ 2 ^ 48 → 24 * h ≤ 2 ^ 48 →
  w * h ≤ max_int →
  ∃ tb, NewTicTacToeBoard wll w h = Ret tb ∧
    Valid tb ∧ Counted tb ∧
    width tb = w ∧ height tb = h ∧ winLineLength tb = wll ∧
    freeSpots tb = w * h ∧ IsGameOver tb = false ∧
    (∀ x y, GetMark tb x y = Ret 0) ∧
    (∀ x y, InBounds tb x y = Ret true ↔ 0 ≤ x < w ∧ 0 ≤ y < h).
Proof.
  intros Hwll Hw Hh Hw4 Hh24 Hwh.
  pose proof (NewTicTacToeBoard_spec wll w h Hwll Hw Hh Hw4 Hh24) as Hnew.
  eexists. split; [exact Hnew|].
  pose proof (NewTicTacToeBoard_Valid _ _ _ _ Hwll Hw Hh Hw4 Hh24 Hwh Hnew)
    as Hv.
  destruct (NewTicTacToeBoard_Counted _ _ _ _ Hwll Hw Hh Hw4 Hh24 Hwh Hnew)
    as [Hc Hf].
  assert (Hwd : width (mkBoard wll
             (replicate (Z.to_nat h) (replicate (Z.to_nat w) 0))
             (wrap64 (w * h)) 0 false) = w).
  { unfold width, len. simpl. destruct (Z.to_nat h) eqn:E; [lia|]. simpl.
    rewrite length_replicate. lia. }
  assert (Hht : height (mkBoard wll
             (replicate (Z.to_nat h) (replicate (Z.to_nat w) 0))
             (wrap64 (w * h)) 0 false) = h).
  { unfold height, len. simpl. rewrite length_replicate. lia. }
  split; [done|]. split; [done|]. split; [done|]. split; [done|].
  split; [done|]. split; [done|]. split; [done|]. split.
  - intros x y. rewrite GetMark_spec by done. f_equal. simpl.
    unfold mark_at. destruct ((0 <=? x) && (0 <=? y)); [|done].
    destruct (replicate (Z.to_nat h) _ !! Z.to_nat y) as [row|] eqn:Hrow;
      [|done].
    apply lookup_replicate in Hrow as [-> _].
    destruct (replicate (Z.to_nat w) 0 !! Z.to_nat x) as [m|] eqn:Hm; [|done].
    by apply lookup_replicate in Hm as [-> _].
  - intros x y. rewrite InBounds_inb by done. split.
    + intros [= Hin]. apply inb_spec in Hin. by rewrite Hwd, Hht in Hin.
    + intros Hin. f_equal. apply inb_spec. by rewrite Hwd, Hht.
Qed.

Lemma NewTicTacToeBoard_fresh_board_witness :
  ∃ tb, NewTicTacToeBoard 3 4 2 = Ret tb ∧ freeSpots tb = 8 ∧
        ∀ x y, GetMark tb x y = Ret 0.
Proof.
  destruct (NewTicTacToeBoard_fresh_board 3 4 2)
    as (tb & Hnew & _ & _ & _ & _ & _ & Hf & _ & Hm & _).
  - lia.
  - lia.
  - lia.
  - lia.
  - lia.
  - rewrite max_int_val. lia.
  - exists tb. split; [exact Hnew|]. split; [exact Hf|exact Hm].
Defined.

(** X3. After an accepted placement, [GetMark] at the placed coordinate
    returns the player's mark, every other coordinate reads as before, and
    the dimensions and the win-line-length are unchanged. *)
Theorem PlaceMove_GetMark tb x y p :
  Valid tb → accepted tb x y →
  ∃ tb', PlaceMove tb x y p = Ret tb' ∧
    GetMark tb' x y = Ret p ∧
    (∀ x' y', (x', y') ≠ (x, y) → GetMark tb' x' y' = GetMark tb x' y') ∧
    width tb' = width tb ∧ height tb' = height tb ∧
    winLineLength tb' = winLineLength tb.
Proof.
  intros Hv Hacc. destruct (PlaceMove_total tb x y p Hv) as [tb' Hpm].
  exists tb'. split; [done|].
  pose proof (PlaceMove_Valid _ _ _ _ _ Hv Hpm) as Hv'.
  pose proof (proj1 (accepted_spec _ _ _ Hv) Hacc) as (_ & Hin & _).
  destruct (PlaceMove_cases _ _ _ _ _ Hv Hpm) as [[Hn _]|(_ & Hb & Hl & _)];
    [done|].
  destruct (width_grid_set _ _ _ _ _ Hb) as [Hw Hh].
  split; [|split; [|done]].
  - rewrite GetMark_spec, Hb, mark_at_placed by done.
    by rewrite decide_True by done.
  - intros x' y' Hne. rewrite !GetMark_spec, Hb, mark_at_placed by done.
    by rewrite decide_False by done.
Qed.

Lemma PlaceMove_GetMark_witness :
  ∃ tb', PlaceMove two_in_row 2 2 79 = Ret tb' ∧ GetMark tb' 2 2 = Ret 79 ∧
         GetMark tb' 0 0 = Ret 88.
Proof.
  destruct (PlaceMove_GetMark two_in_row 2 2 79)
    as (tb' & Hpm & Hm & Hframe & _).
  - concrete_valid.
  - concrete_accepted.
  - exists tb'. split; [exact Hpm|]. split; [exact Hm|].
    rewrite Hframe; [reflexivity|discriminate].
Defined.

Lemma PlaceMove_keeps_mark tb a b p tb' x y m :
  Valid tb → PlaceMove tb a b p = Ret tb' →
  GetMark tb x y = Ret m → m ≠ 0 → GetMark tb' x y = Ret m.
Proof.
  intros Hv Hpm Hm Hne.
  pose proof (PlaceMove_Valid _ _ _ _ _ Hv Hpm) as Hv'.
  destruct (PlaceMove_cases _ _ _ _ _ Hv Hpm) as [[_ ->]|(Hacc & Hb & _)];
    [done|].
  pose proof (proj1 (accepted_spec _ _ _ Hv) Hacc) as (_ & Hin & H0 & _).
  rewrite GetMark_spec in Hm |- * by done. injection Hm as Hm.
  rewrite Hb, mark_at_placed by done. case_decide as Heq; [|by rewrite Hm].
  injection Heq as -> ->. rewrite H0 in Hm. simpl in Hm. congruence.
Qed.

(** X4. A mark is permanent: in every later state of a valid board a marked
    cell still holds the same mark, and the dimensions and the
    win-line-length are those of the start. *)
Theorem marks_are_permanent tb tb' :
  Valid tb → Later tb tb' →
  (∀ x y m, GetMark tb x y = Ret m → m ≠ 0 → GetMark tb' x y = Ret m) ∧
  width tb' = width tb ∧ height tb' = height tb ∧
  winLineLength tb' = winLineLength tb.
Proof.
  intros Hv Hl. induction Hl as [|tb1 a b p tb2 Hl IH Hpm]; [done|].
  destruct IH as (Hkeep & Hw & Hh & Hwll).
  pose proof (Later_Valid _ _ Hv Hl) as Hv1.
  destruct (PlaceMove_dims _ _ _ _ _ Hv1 Hpm) as (Hw' & Hh' & Hwll').
  split; [|by rewrite Hw', Hh', Hwll'].
  intros x y m Hm Hne. eapply PlaceMove_keeps_mark; eauto.
Qed.

Lemma marks_are_permanent_witness :
  GetMark won3 1 1 = Ret 79 ∧ width won3 = width two_in_row.
Proof.
  destruct (marks_are_permanent two_in_row won3) as (Hkeep & Hw & _).
  - concrete_valid.
  - apply (later_move two_in_row two_in_row 2 0 88);
      [apply later_refl|reflexivity].
  - split; [|exact Hw]. apply Hkeep; [reflexivity|lia].
Defined.

Lemma PlaceMove_free_le tb x y p tb' :
  Valid tb → PlaceMove tb x y p = Ret tb' →
  freeSpots tb' ≤ freeSpots tb.
Proof.
  intros Hv Hpm.
  destruct (PlaceMove_cases _ _ _ _ _ Hv Hpm) as [[_ ->]|(_ & _ & _ & Hf & _)];
    lia.
Qed.

(** X5. Any sequence of [PlaceMove] calls on a valid board returns a valid
    board whose free-cell count has not grown and is not negative; when
    the count is the number of empty cells at the start and all the marks
    placed are non-zero, it is the number of empty cells at the end. *)
Theorem PlaceMoves_invariants moves : ∀ tb,
  Valid tb →
  ∃ tb', PlaceMoves tb moves = Ret tb' ∧ Valid tb' ∧
    0 ≤ freeSpots tb' ≤ freeSpots tb ∧
    (Counted tb → Forall (λ m : Z * Z * Z, m.2 ≠ 0) moves → Counted tb').
Proof.
  induction moves as [|[[x y] p] moves IH]; intros tb Hv.
  - exists tb. split; [done|]. split; [done|].
    pose proof (valid_free _ Hv). split; [lia|done].
  - simpl. destruct (PlaceMove_total tb x y p Hv) as [tb1 Hpm].
    rewrite Hpm. cbn [bind].
    pose proof (PlaceMove_Valid _ _ _ _ _ Hv Hpm) as Hv1.
    pose proof (PlaceMove_free_le _ _ _ _ _ Hv Hpm) as Hle.
    destruct (IH tb1 Hv1) as (tb' & Hrun & Hv' & Hf & Hc).
    exists tb'. split; [done|]. split; [done|]. split; [lia|].
    intros Hcnt Hall. apply Forall_cons in Hall as [Hp Hall].
    apply Hc; [|done]. exact (PlaceMove_Counted _ _ _ _ _ Hv Hcnt Hp Hpm).
Qed.

Lemma PlaceMoves_invariants_witness :
  ∃ tb', PlaceMoves empty3 [(0, 0, 88); (0, 0, 79); (5, 5, 79); (1, 1, 79)]
           = Ret tb' ∧ Valid tb' ∧ Counted tb'.
Proof.
  destruct (PlaceMoves_invariants
              [(0, 0, 88); (0, 0, 79); (5, 5, 79); (1, 1, 79)] empty3)
    as (tb' & Hrun & Hv & _ & Hc).
  - concrete_valid.
  - exists tb'. split; [exact Hrun|]. split; [exact Hv|]. apply Hc.
    + reflexivity.
    + repeat constructor; simpl; lia.
Defined.

(** A qualifying run fits in the grid. *)
Lemma qualifies_bound tb p x y d :
  Valid tb → unit_dir d.1 d.2 → inb tb x y = true →
  qualifies tb p x y d →
  winLineLength tb ≤ Z.max (width tb) (height tb).
Proof.
  intros Hv Hd Hin (f & b & Hf & Hb & Hle).
  destruct (getLineLength_run tb p _ _ Hv Hd x y Hin) as (f' & _ & Hf' & Hfb).
  destruct (getLineLength_run tb p _ _ Hv (unit_dir_opp _ _ Hd) x y Hin)
    as (b' & _ & Hb' & Hbb).
  rewrite (run_unique _ _ _ _ _ _ _ _ Hf Hf') in Hle.
  rewrite (run_unique _ _ _ _ _ _ _ _ Hb Hb') in Hle.
  pose proof (steps_opp tb x y _ _ Hd Hin). lia.
Qed.

Lemma inb_placed tb x y p x' y' : inb (placed tb x y p) x' y' = inb tb x' y'.
Proof. unfold placed. apply inb_grid_set. Qed.

(** X6. When the win-line-length exceeds both dimensions nobody can win:
    no placement changes the winner. *)
Theorem no_winner_when_line_too_long tb x y p tb' :
  Valid tb → Z.max (width tb) (height tb) < winLineLength tb →
  PlaceMove tb x y p = Ret tb' → winner tb' = winner tb.
Proof.
  intros Hv Hlong Hpm. destruct (rejects tb x y) as [[]| |] eqn:Hrej.
  - apply not_accepted_rejects in Hrej; [|done].
    rewrite PlaceMove_rejected in Hpm by done. congruence.
  - apply accepted_rejects in Hrej; [|done].
    destruct (mark_spec tb x y p Hv Hrej) as [_ Hv2].
    pose proof (proj1 (accepted_spec _ _ _ Hv) Hrej) as (_ & Hin & _).
    destruct (PlaceMove_accepted tb x y p Hv Hrej)
      as [[(d & Hd & Hq) _]|[_ He]].
    + exfalso. apply DirOffsets_unit in Hd.
      apply qualifies_bound in Hq; [|done|done|by rewrite inb_placed].
      unfold placed in Hq. simpl in Hq.
      destruct (width_grid_set tb
                  (set_freeSpots (set_board tb (grid_set (board tb) x y p))
                     (freeSpots tb - 1)) x y p eq_refl) as [Hw Hh].
      rewrite Hw, Hh in Hq. lia.
    + rewrite He in Hpm. injection Hpm as <-. by case_match.
  - by rewrite rejects_spec in Hrej.
  - by rewrite rejects_spec in Hrej.
Qed.

Lemma no_winner_when_line_too_long_witness :
  winner (mkBoard 4 [[88; 88; 88]; [0; 0; 0]; [0; 0; 0]] 6 0 false)
  = winner (mkBoard 4 [[88; 88; 0]; [0; 0; 0]; [0; 0; 0]] 7 0 false).
Proof.
  apply (no_winner_when_line_too_long
           (mkBoard 4 [[88; 88; 0]; [0; 0; 0]; [0; 0; 0]] 7 0 false) 2 0 88).
  - concrete_valid.
  - vm_compute. reflexivity.
  - reflexivity.
Defined.

(** X7. With a win-line-length of 1 or less (a negative one included)
    every accepted placement wins at once. *)
Theorem short_line_wins_at_once tb x y p :
  Valid tb → accepted tb x y → winLineLength tb ≤ 1 →
  ∃ tb', PlaceMove tb x y p = Ret tb' ∧ winner tb' = p.
Proof.
  intros Hv Hacc Hshort.
  destruct (mark_spec tb x y p Hv Hacc) as [_ Hv2].
  pose proof (proj1 (accepted_spec _ _ _ Hv) Hacc) as (_ & Hin & _).
  destruct (PlaceMove_accepted tb x y p Hv Hacc) as [[_ ->]|[Hnone _]].
  - eexists. split; [done|]. by case_match.
  - exfalso. apply (Hnone (0, 1)); [by left|].
    destruct (lineLength_spec (placed tb x y p) p x y (0, 1))
      as (f & b & _ & Hf & Hb);
      [done|unfold unit_dir; simpl; lia|by rewrite inb_placed|].
    exists f, b. split; [done|]. split; [done|].
    destruct Hf as [Hf0 _], Hb as [Hb0 _]. unfold placed. simpl. lia.
Qed.

Lemma short_line_wins_at_once_witness :
  ∃ tb', PlaceMove (mkBoard (-1) [[0; 0]; [0; 0]] 4 0 false) 1 1 79 = Ret tb' ∧
         winner tb' = 79.
Proof.
  apply (short_line_wins_at_once (mkBoard (-1) [[0; 0]; [0; 0]] 4 0 false)).
  - concrete_valid.
  - concrete_accepted.
  - simpl. lia.
Defined.

Lemma PlaceMove_full_over tb x y p tb' :
  Valid tb → (freeSpots tb = 0 → IsGameOver tb = true) →
  PlaceMove tb x y p = Ret tb' →
  freeSpots tb' = 0 → IsGameOver tb' = true.
Proof.
  intros Hv Hinv Hpm Hfull. destruct (rejects tb x y) as [[]| |] eqn:Hrej.
  - apply not_accepted_rejects in Hrej; [|done].
    rewrite PlaceMove_rejected in Hpm by done. injection Hpm as <-. auto.
  - apply accepted_rejects in Hrej; [|done].
    destruct (PlaceMove_accepted tb x y p Hv Hrej) as [[_ He]|[_ He]];
      rewrite He in Hpm; injection Hpm as <-.
    + destruct (p =? 0) eqn:Hp; simpl in *.
      * destruct (freeSpots tb - 1 =? 0) eqn:Hf; [done|].
        simpl in Hfull. apply Z.eqb_neq in Hf. lia.
      * unfold IsGameOver. simpl. rewrite Hp. apply orb_true_r.
    + destruct (freeSpots tb - 1 =? 0) eqn:Hf; [done|].
      simpl in Hfull. apply Z.eqb_neq in Hf. lia.
  - by rewrite rejects_spec in Hrej.
  - by rewrite rejects_spec in Hrej.
Qed.

(** X8. A board that runs out of free cells is over: along any sequence of
    placements from a valid board that is not yet full, a free-cell count
    of 0 comes with a winner or a tie. *)
Theorem full_board_is_over moves : ∀ tb tb',
  Valid tb → (freeSpots tb = 0 → IsGameOver tb = true) →
  PlaceMoves tb moves = Ret tb' →
  freeSpots tb' = 0 → IsGameOver tb' = true.
Proof.
  induction moves as [|[[x y] p] moves IH]; intros tb tb' Hv Hinv; simpl.
  - intros [= <-]. done.
  - destruct (PlaceMove tb x y p) as [tb1| |] eqn:Hpm; [|done..]. cbn [bind].
    apply IH.
    + by eapply PlaceMove_Valid.
    + by eapply PlaceMove_full_over.
Qed.

Lemma full_board_is_over_witness :
  IsGameOver
    (mkBoard 3 [[88; 79; 88]; [88; 79; 79]; [79; 88; 88]] 0 0 true) = true.
Proof.
  apply (full_board_is_over [(0, 0, 79); (2, 2, 88)] last_cell).
  - concrete_valid.
  - simpl. discriminate.
  - reflexivity.
  - reflexivity.
Defined.

(** A run reaches at least as far as any stretch of cells holding [p]. *)
Lemma run_ge g p x y dx dy n m :
  run g p x y dx dy n → 0 ≤ m →
  (∀ k, 1 ≤ k ≤ m → mark_at g (x + k * dx) (y + k * dy) = Some p) →
  m ≤ n.
Proof.
  intros (Hn & _ & Hstop) Hm Hall.
  destruct (decide (m ≤ n)) as [|Hlt]; [done|].
  exfalso. apply Hstop. apply Hall. lia.
Qed.

(** A direction qualifies exactly when a straight segment of at least
    win-line-length cells through [(x, y)] holds [p] throughout. *)
Lemma qualifies_segment tb p x y d :
  Valid tb → unit_dir d.1 d.2 → inb tb x y = true →
  mark_at (board tb) x y = Some p →
  qualifies tb p x y d ↔
  ∃ f b, 0 ≤ f ∧ 0 ≤ b ∧ winLineLength tb ≤ 1 + f + b ∧
    ∀ k, - b ≤ k ≤ f →
         mark_at (board tb) (x + k * d.1) (y + k * d.2) = Some p.
Proof.
  intros Hv Hd Hin Hxy. split.
  - intros (f & b & (Hf0 & Hf & _) & (Hb0 & Hb & _) & Hle).
    exists f, b. split; [done|]. split; [done|]. split; [done|].
    intros k Hk. destruct (Z.lt_trichotomy k 0) as [Hneg|[->|Hpos]].
    + specialize (Hb (- k) ltac:(lia)).
      replace (x + - k * - d.1) with (x + k * d.1) in Hb by lia.
      by replace (y + - k * - d.2) with (y + k * d.2) in Hb by lia.
    + by rewrite !Z.mul_0_l, !Z.add_0_r.
    + apply Hf. lia.
  - intros (f & b & Hf0 & Hb0 & Hle & Hseg).
    destruct (lineLength_spec tb p x y d Hv Hd Hin) as (f' & b' & _ & Hf' & Hb').
    exists f', b'. split; [done|]. split; [done|].
    assert (f ≤ f').
    { apply (run_ge _ _ _ _ _ _ _ _ Hf' Hf0). intros k Hk. apply Hseg. lia. }
    assert (b ≤ b').
    { apply (run_ge _ _ _ _ _ _ _ _ Hb' Hb0). intros k Hk.
      replace (x + k * - d.1) with (x + - k * d.1) by lia.
      replace (y + k * - d.2) with (y + - k * d.2) by lia.
      apply Hseg. lia. }
    lia.
Qed.

(** X9. After an accepted placement of a non-zero mark [p] at [(x, y)], the
    winner is [p] exactly when the new grid has, along one of the four
    directions, a straight segment through [(x, y)] of at least
    win-line-length cells that all hold [p]. *)
Theorem winner_iff_line tb x y p :
  Valid tb → accepted tb x y → p ≠ 0 →
  ∃ tb', PlaceMove tb x y p = Ret tb' ∧
    (winner tb' = p ↔
     ∃ d f b, d ∈ DirOffsets ∧ 0 ≤ f ∧ 0 ≤ b ∧
       winLineLength tb ≤ 1 + f + b ∧
       ∀ k, - b ≤ k ≤ f →
            mark_at (board tb') (x + k * d.1) (y + k * d.2) = Some p).
Proof.
  intros Hv Hacc Hp. apply Z.eqb_neq in Hp as Hpb.
  destruct (mark_spec tb x y p Hv Hacc) as [_ Hv2].
  destruct (accepted_not_over _ _ _ Hacc) as [Hw Ht].
  pose proof (proj1 (accepted_spec _ _ _ Hv) Hacc) as (_ & Hin & _).
  assert (Hin2 : inb (placed tb x y p) x y = true) by by rewrite inb_placed.
  assert (Hxy : mark_at (board (placed tb x y p)) x y = Some p)
    by by apply mark_at_grid_set_eq.
  assert (Hseg : ∀ d, d ∈ DirOffsets →
            qualifies (placed tb x y p) p x y d ↔
            ∃ f b, 0 ≤ f ∧ 0 ≤ b ∧ winLineLength tb ≤ 1 + f + b ∧
              ∀ k, - b ≤ k ≤ f →
                   mark_at (grid_set (board tb) x y p)
                     (x + k * d.1) (y + k * d.2) = Some p).
  { intros d Hd. apply qualifies_segment; [done| |done|done].
    by apply DirOffsets_unit. }
  destruct (PlaceMove_accepted tb x y p Hv Hacc) as [[Hq ->]|[Hq ->]];
    rewrite ?Hpb; simpl.
  - eexists. split; [done|]. simpl. split; [|done]. intros _.
    destruct Hq as (d & Hd & Hq). apply Hseg in Hq as (f & b & Hq); [|done].
    by exists d, f, b.
  - eexists. split; [done|].
    assert (Hnw : winner tb ≠ p) by (rewrite Hw; congruence).
    destruct (freeSpots tb - 1 =? 0); simpl;
      (split; [done|]; intros (d & f & b & Hd & Hrest); exfalso;
       apply (Hq d Hd); apply Hseg; [done|]; by exists f, b).
Qed.

Lemma winner_iff_line_witness :
  ∃ tb', PlaceMove two_in_row 2 0 88 = Ret tb' ∧ winner tb' = 88.
Proof.
  destruct (winner_iff_line two_in_row 2 0 88) as (tb' & Hpm & Hwin).
  - concrete_valid.
  - concrete_accepted.
  - lia.
  - exists tb'. split; [exact Hpm|]. apply Hwin.
    exists (1, 0), 0, 2. split; [right; right; left|].
    split; [lia|]. split; [lia|]. split; [simpl; lia|].
    intros k Hk. vm_compute in Hpm. injection Hpm as <-.
    assert (k = -2 ∨ k = -1 ∨ k = 0) as [->|[->| ->]] by lia; reflexivity.
Defined.

(** * The tic-tac-toe program *)

Lemma byte_at_in_range s i :
  0 ≤ i < str_len s → ∃ c, byte_at s i = Ret c.
Proof.
  unfold byte_at, str_len. intros Hi.
  rewrite (proj2 (Z.leb_le 0 i)), (proj2 (Z.ltb_lt i _)) by lia. simpl.
  assert (Hn : (Z.to_nat i < String.length s)%nat) by lia.
  revert Hn. generalize (Z.to_nat i). clear Hi.
  induction s as [|a s IH]; intros n Hn; simpl in *; [lia|].
  destruct n as [|n]; [eauto|]. apply IH. lia.
Qed.

Lemma empties_pos g x y :
  mark_at g x y = Some 0 → (0 < empties g)%nat.
Proof.
  unfold mark_at, empties. destruct ((0 <=? x) && (0 <=? y)); [|done].
  destruct (g !! Z.to_nat y) as [row|] eqn:Hrow; [|done]. intros Hm.
  assert (Hin : (0 : Z) ∈ filter (λ m, m = 0) (concat g)).
  { apply list_elem_of_filter. split; [done|]. apply list_elem_of_In.
    apply in_concat. exists row.
    split; apply list_elem_of_In; by eapply list_elem_of_lookup_2. }
  destruct (filter _ _); [by apply elem_of_nil in Hin|simpl; lia].
Qed.

Lemma IsSpotEmpty_total tb x y :
  Valid tb → ∃ e, IsSpotEmpty tb x y = Ret e.
Proof.
  intros Hv. unfold IsSpotEmpty. rewrite GetMark_spec by done. simpl. eauto.
Qed.

Lemma Playing_accepted w h players tb i x y :
  Playing w h players tb i →
  0 ≤ x < w → 0 ≤ y < h → IsSpotEmpty tb x y = Ret true →
  accepted tb x y.
Proof.
  intros [Hv Hc Hw Hh Hon Hi Hm Hl] Hx Hy He.
  assert (Hin : inb tb x y = true) by (apply inb_spec; lia).
  apply accepted_spec; [done|]. unfold IsSpotEmpty in He.
  rewrite GetMark_spec in He by done. simpl in He.
  destruct (mark_at_inb _ _ _ Hv Hin) as [m Hm0]. rewrite Hm0 in He.
  simpl in He. injection He as He. apply Z.eqb_eq in He. subst m.
  repeat split; try done.
  pose proof (empties_pos _ _ _ Hm0). unfold Counted in Hc. lia.
Qed.

Lemma no_zero_byte_spec s :
  no_zero_byte s = true → ∀ i c, byte_at s i = Ret c → c ≠ 0.
Proof.
  intros Hs i c. unfold byte_at.
  destruct ((0 <=? i) && (i <? str_len s)); [|done].
  revert Hs. generalize (Z.to_nat i).
  induction s as [|a s IH]; intros n Hs; simpl in *; [done|].
  apply andb_true_iff in Hs as [Ha Hs]. destruct n as [|n]; [|by apply IH].
  intros [= <-]. apply negb_true_iff, N.eqb_neq in Ha. lia.
Qed.

(** The next player index stays a position of [players]. *)
Lemma next_index players i :
  0 ≤ i < str_len players → str_len players ≤ max_int →
  Z.rem (wrap64 (i + 1)) (str_len players) = (i + 1) mod str_len players ∧
  0 ≤ (i + 1) mod str_len players < str_len players.
Proof.
  intros Hi Hl. rewrite wrap64_id
    by (unfold is_int; rewrite min_int_val, max_int_val in *; lia).
  rewrite Z.rem_mod_nonneg by lia. split; [done|].
  apply Z.mod_pos_bound. lia.
Qed.

(** The cases of one turn of the game loop, at the loop head. *)
Lemma game_turn_cases Sscanf w h players text tb i out :
  Playing w h players tb i →
  ∃ r, game_turn Sscanf w h players text tb i out = Ret r ∧
    match r with
    | Continue (tb', i', out') =>
        (tb' = tb ∧ i' = i ∧
         (out' = out ++ [InvalidInput] ∨ ∃ x y, out' = out ++ [SpotTaken x y]))
        ∨
        (∃ x y c, Sscanf text = Some (x, y) ∧ byte_at players i = Ret c ∧
           accepted tb x y ∧ PlaceMove tb x y c = Ret tb' ∧
           i' = (i + 1) mod str_len players ∧
           out' = out ++ [PlacedAt c x y] ∧ Playing w h players tb' i')
    | Break (tb', i', out') =>
        ∃ x y c, Sscanf text = Some (x, y) ∧ byte_at players i = Ret c ∧
          accepted tb x y ∧ PlaceMove tb x y c = Ret tb' ∧ Valid tb' ∧
          IsGameOver tb' = true ∧ i' = i ∧
          ((winner tb' = c ∧
            out' = out ++ [PlacedAt c x y; Printed tb'; Wins c]) ∨
           (winner tb' = 0 ∧ tie tb' = true ∧
            out' = out ++ [PlacedAt c x y; Printed tb'; Tied]))
    end.
Proof.
  intros Hplay. pose proof Hplay as [Hv Hc Hw Hh Hon Hi Hmarks Hl].
  pose proof (no_zero_byte_spec _ Hmarks) as Hm.
  unfold game_turn. destruct (Sscanf text) as [[x y]|] eqn:Hscan.
  2: { eexists. split; [done|]. left. split; [done|]. split; [done|].
       by left. }
  destruct ((x <? 0) || (x >=? w) || (y <? 0) || (y >=? h)) eqn:Hrange.
  { eexists. split; [done|]. left. split; [done|]. split; [done|].
    by left. }
  apply orb_false_elim in Hrange as [Hrange Hy2].
  apply orb_false_elim in Hrange as [Hrange Hy1].
  apply orb_false_elim in Hrange as [Hx1 Hx2].
  rewrite Z.geb_leb in Hx2, Hy2.
  apply Z.ltb_ge in Hx1, Hy1. apply Z.leb_gt in Hx2, Hy2.
  destruct (IsSpotEmpty_total tb x y Hv) as [e He]. rewrite He. cbn [bind].
  destruct e; simpl.
  2: { eexists. split; [done|]. left. split; [done|]. split; [done|].
       right. by exists x, y. }
  assert (Hacc : accepted tb x y) by (eapply Playing_accepted; eauto; lia).
  destruct (byte_at_in_range players i Hi) as [c Hbyte]. rewrite Hbyte.
  cbn [bind]. pose proof (Hm _ _ Hbyte) as Hc0.
  destruct (PlaceMove_total tb x y c Hv) as [tb' Hpm]. rewrite Hpm. cbn [bind].
  pose proof (PlaceMove_Valid _ _ _ _ _ Hv Hpm) as Hv'.
  pose proof (PlaceMove_Counted _ _ _ _ _ Hv Hc Hc0 Hpm) as Hc'.
  destruct (PlaceMove_dims _ _ _ _ _ Hv Hpm) as (Hw' & Hh' & _).
  destruct (PlaceMove_cases _ _ _ _ _ Hv Hpm) as [[Hn _]|(_ & _ & _ & _ & Hwin)];
    [done|].
  destruct (IsGameOver tb') eqn:Hover.
  - destruct (winner tb' =? 0) eqn:Hw0; simpl.
    + apply Z.eqb_eq in Hw0. eexists. split; [done|].
      exists x, y, c. do 7 (split; [done|]). right.
      unfold IsGameOver in Hover. rewrite Hw0 in Hover. simpl in Hover.
      rewrite orb_false_r in Hover. rewrite <- !app_assoc. done.
    + apply Z.eqb_neq in Hw0. destruct Hwin as [|Hwin]; [done|].
      eexists. split; [done|]. exists x, y, c. do 7 (split; [done|]).
      left. rewrite Hwin, <- !app_assoc. done.
  - rewrite (proj2 (Z.eqb_neq (str_len players) 0)) by lia.
    destruct (next_index players i Hi Hl) as [Hnext Hbound].
    eexists. split; [done|]. right. exists x, y, c.
    do 4 (split; [done|]). rewrite Hnext. split; [done|]. split; [done|].
    constructor; try done; congruence.
Qed.


Ltac concrete_playing :=
  constructor;
  [ concrete_valid | reflexivity | reflexivity | reflexivity | reflexivity
  | unfold str_len; simpl; lia | reflexivity
  | unfold str_len; simpl; rewrite max_int_val; lia ].


Lemma Later_first tb x y p tb1 tb' :
  PlaceMove tb x y p = Ret tb1 → Later tb1 tb' → Later tb tb'.
Proof.
  intros Hpm Hl. induction Hl as [|tb2 a b q tb3 _ IH Hpm'].
  - eapply later_move; [apply later_refl|done].
  - eapply later_move; done.
Qed.

Lemma PlaceMove_mark_origin tb a b c tb1 x y m :
  Valid tb → PlaceMove tb a b c = Ret tb1 →
  GetMark tb1 x y = Ret m → m ≠ 0 → GetMark tb x y = Ret m ∨ m = c.
Proof.
  intros Hv Hpm Hm Hne.
  pose proof (PlaceMove_Valid _ _ _ _ _ Hv Hpm) as Hv1.
  destruct (PlaceMove_cases _ _ _ _ _ Hv Hpm) as [[_ ->]|(Hacc & Hb & _)];
    [by left|].
  pose proof (proj1 (accepted_spec _ _ _ Hv) Hacc) as (_ & Hin & _).
  rewrite GetMark_spec in Hm |- * by done.
  rewrite Hb, mark_at_placed in Hm by done. case_decide; [|by left].
  right. simpl in Hm. congruence.
Qed.

(** How the game loop ends, from its loop head. *)
Lemma game_loop_inv Sscanf w h players lines : ∀ tb i out,
  Playing w h players tb i →
  ∃ tb' i' out',
    game_loop Sscanf w h players lines tb i out = Ret (tb', i', out') ∧
    Valid tb' ∧ Counted tb' ∧ Later tb tb' ∧
    (∀ x y m, GetMark tb' x y = Ret m → m ≠ 0 →
              GetMark tb x y = Ret m ∨ ∃ j, byte_at players j = Ret m) ∧
    ((IsGameOver tb' = true ∧
      ∃ c pre, byte_at players i' = Ret c ∧
        ((winner tb' = c ∧ out' = pre ++ [Wins c]) ∨
         (winner tb' = 0 ∧ tie tb' = true ∧ out' = pre ++ [Tied]))) ∨
     (Playing w h players tb' i' ∧
      ∃ c pre, byte_at players i' = Ret c ∧
        out' = pre ++ [Printed tb'; Prompt c])).
Proof.
  induction lines as [|text rest IH]; intros tb i out Hplay;
    pose proof Hplay as [Hv Hcnt _ _ _ Hi Hnz _];
    destruct (byte_at_in_range players i Hi) as [c0 Hc0];
    cbn [game_loop]; rewrite Hc0; cbn [bind].
  { eexists _, _, _. split; [done|]. split; [done|]. split; [done|].
    split; [apply later_refl|]. split; [by left|]. right. split; [done|].
    by exists c0, out. }
  destruct (game_turn_cases Sscanf w h players text tb i
              (out ++ [Printed tb; Prompt c0]) Hplay) as (r & -> & Hr).
  cbn [bind]. destruct r as [[[tb1 i1] out1]|[[tb1 i1] out1]].
  - assert (Hnext : Playing w h players tb1 i1 ∧
              (tb1 = tb ∨ ∃ x y c, byte_at players i = Ret c ∧
                            PlaceMove tb x y c = Ret tb1)).
    { destruct Hr as [(-> & -> & _)|(x & y & c & _ & Hb & _ & Hpm & _ & _ & Hp)].
      - split; [done|by left].
      - split; [done|]. right. by exists x, y, c. }
    destruct Hnext as [Hplay1 Hfrom].
    destruct (IH tb1 i1 out1 Hplay1)
      as (tb' & i' & out' & Hrun & Hv' & Hc' & Hl & Hmarks & Hend).
    exists tb', i', out'. split; [done|]. split; [done|]. split; [done|].
    destruct Hfrom as [->|(x & y & c & Hb & Hpm)]; [done|].
    split; [by eapply Later_first|]. split; [|done].
    intros x' y' m Hm Hne.
    destruct (Hmarks x' y' m Hm Hne) as [Hm1|Hj]; [|by right].
    destruct (PlaceMove_mark_origin _ _ _ _ _ _ _ _ Hv Hpm Hm1 Hne)
      as [?| ->]; [by left|right; eauto].
  - destruct Hr as (x & y & c & _ & Hb & _ & Hpm & Hv1 & Hover & -> & Hout).
    pose proof (no_zero_byte_spec _ Hnz _ _ Hb) as Hc0'.
    exists tb1, i, out1. split; [done|]. split; [done|].
    split; [exact (PlaceMove_Counted _ _ _ _ _ Hv Hcnt Hc0' Hpm)|].
    split; [eapply later_move; [apply later_refl|done]|]. split.
    + intros x' y' m Hm Hne.
      destruct (PlaceMove_mark_origin _ _ _ _ _ _ _ _ Hv Hpm Hm Hne)
        as [?| ->]; [by left|right; eauto].
    + left. split; [done|]. exists c.
      destruct Hout as [[Hw ->]|(Hw & Ht & ->)].
      * exists ((out ++ [Printed tb; Prompt c0])
                  ++ [PlacedAt c x y; Printed tb1]).
        split; [done|]. left. split; [done|].
        rewrite <- (app_assoc _ [PlacedAt c x y; Printed tb1]). reflexivity.
      * exists ((out ++ [Printed tb; Prompt c0])
                  ++ [PlacedAt c x y; Printed tb1]).
        split; [done|]. right. split; [done|]. split; [done|].
        rewrite <- (app_assoc _ [PlacedAt c x y; Printed tb1]). reflexivity.
Qed.

(** X11. From its loop head the game loop returns on every input, with a
    valid board that is a later state of the one it started from. It ends
    in one of two ways: the game is over and the last thing written
    announces a tie or, as the winner, the symbol of the player who moved
    last; or the input ended with the game still on, and the last thing
    written is the prompt for the current player. *)
Theorem game_loop_ends Sscanf w h players lines tb i out :
  Playing w h players tb i →
  ∃ tb' i' out',
    game_loop Sscanf w h players lines tb i out = Ret (tb', i', out') ∧
    Valid tb' ∧ Later tb tb' ∧
    ((IsGameOver tb' = true ∧
      ∃ c pre, byte_at players i' = Ret c ∧
        ((winner tb' = c ∧ out' = pre ++ [Wins c]) ∨
         (winner tb' = 0 ∧ tie tb' = true ∧ out' = pre ++ [Tied]))) ∨
     (Playing w h players tb' i' ∧
      ∃ c pre, byte_at players i' = Ret c ∧
        out' = pre ++ [Printed tb'; Prompt c])).
Proof.
  intros Hplay.
  destruct (game_loop_inv Sscanf w h players lines tb i out Hplay)
    as (tb' & i' & out' & Hrun & Hv & _ & Hl & _ & Hend).
  by exists tb', i', out'.
Qed.

Lemma game_loop_ends_witness :
  ∃ tb' i' out',
    game_loop example_sscanf 3 3 "XO" ["0 0"; "oops"; "0 0"; "1 1"]
      empty3 0 [] = Ret (tb', i', out') ∧ Later empty3 tb'.
Proof.
  destruct (game_loop_ends example_sscanf 3 3 "XO"
              ["0 0"; "oops"; "0 0"; "1 1"] empty3 0 [])
    as (tb' & i' & out' & Hrun & _ & Hl & _).
  - concrete_playing.
  - exists tb', i', out'. split; [exact Hrun|exact Hl].
Defined.

(** X12. The game loop only ever places the players' symbols: a mark on
    the final board was on the board at the start or is a byte of
    [players]. *)
Theorem game_loop_marks Sscanf w h players lines tb i out tb' i' out' :
  Playing w h players tb i →
  game_loop Sscanf w h players lines tb i out = Ret (tb', i', out') →
  ∀ x y m, GetMark tb' x y = Ret m → m ≠ 0 →
           GetMark tb x y = Ret m ∨ ∃ j, byte_at players j = Ret m.
Proof.
  intros Hplay Hrun.
  destruct (game_loop_inv Sscanf w h players lines tb i out Hplay)
    as (tb1 & i1 & out1 & Hrun1 & _ & _ & _ & Hmarks & _).
  rewrite Hrun in Hrun1. injection Hrun1 as <- <- <-. exact Hmarks.
Qed.

Lemma game_loop_marks_witness :
  GetMark empty3 1 1 = Ret 79 ∨ ∃ j, byte_at "XO" j = Ret 79.
Proof.
  apply (game_loop_marks example_sscanf 3 3 "XO" ["0 0"; "1 1"] empty3 0 []
           (mkBoard 3 [[88; 0; 0]; [0; 79; 0]; [0; 0; 0]] 7 0 false) 0
           [Printed empty3; Prompt 88; PlacedAt 88 0 0;
            Printed (mkBoard 3 [[88; 0; 0]; [0; 0; 0]; [0; 0; 0]] 8 0 false);
            Prompt 79; PlacedAt 79 1 1;
            Printed (mkBoard 3 [[88; 0; 0]; [0; 79; 0]; [0; 0; 0]] 7 0 false);
            Prompt 88]).
  - concrete_playing.
  - reflexivity.
  - reflexivity.
  - lia.
Defined.

(** X13. Once the game is over the loop reads no more input: lines after
    the move that ended the game do not change the result. *)
Theorem game_loop_stops_reading Sscanf w h players lines more :
  ∀ tb i out tb' i' out',
    Playing w h players tb i →
    game_loop Sscanf w h players lines tb i out = Ret (tb', i', out') →
    IsGameOver tb' = true →
    game_loop Sscanf w h players (lines ++ more) tb i out
    = Ret (tb', i', out').
Proof.
  induction lines as [|text rest IH]; intros tb i out tb' i' out' Hplay;
    pose proof Hplay as [_ _ _ _ Hon Hi _ _];
    destruct (byte_at_in_range players i Hi) as [c0 Hc0].
  { cbn [game_loop]. rewrite Hc0. cbn [bind]. intros [= <- <- <-] Hover.
    congruence. }
  rewrite <- app_comm_cons. cbn [game_loop]. rewrite Hc0. cbn [bind].
  destruct (game_turn_cases Sscanf w h players text tb i
              (out ++ [Printed tb; Prompt c0]) Hplay) as (r & -> & Hr).
  cbn [bind]. destruct r as [[[tb1 i1] out1]|[[tb1 i1] out1]]; [|done].
  apply IH.
  destruct Hr as [(-> & -> & _)|(x & y & c & _ & _ & _ & _ & _ & _ & Hp)];
    done.
Qed.

Lemma game_loop_stops_reading_witness :
  game_loop example_sscanf 1 1 "XO" (["0 0"] ++ ["0 0"; "1 1"])
    (mkBoard 1 [[0]] 1 0 false) 0 []
  = Ret (mkBoard 1 [[88]] 0 88 false, 0,
         [Printed (mkBoard 1 [[0]] 1 0 false); Prompt 88; PlacedAt 88 0 0;
          Printed (mkBoard 1 [[88]] 0 88 false); Wins 88]).
Proof.
  apply (game_loop_stops_reading example_sscanf 1 1 "XO" ["0 0"]).
  - concrete_playing.
  - reflexivity.
  - reflexivity.
Defined.

Lemma tryArgInt_returns Atoi Args i d :
  0 ≤ i →
  ∃ v, tryArgInt Atoi Args i d = Ret v ∧
       (v = d ∨ ∃ a, a ∈ Args ∧ Atoi a = Some v).
Proof.
  intros Hi. unfold tryArgInt. destruct (i <? len Args) eqn:Hlt.
  - apply Z.ltb_lt in Hlt.
    destruct (index_in_range Args i (conj Hi Hlt)) as (a & -> & Ha).
    cbn [bind]. destruct (Atoi a) as [v|] eqn:Hv; eexists; (split; [done|]).
    + right. exists a. split; [by eapply list_elem_of_lookup_2|done].
    + by left.
  - eexists. split; [done|]. by left.
Qed.

Lemma tryArg_returns Args i d :
  0 ≤ i → ∃ s, tryArg Args i d = Ret s ∧ (s = d ∨ s ∈ Args).
Proof.
  intros Hi. unfold tryArg. destruct (i <? len Args) eqn:Hlt.
  - apply Z.ltb_lt in Hlt.
    destruct (index_in_range Args i (conj Hi Hlt)) as (a & -> & Ha).
    exists a. split; [done|]. right. by eapply list_elem_of_lookup_2.
  - eexists. split; [done|]. by left.
Qed.

(** The configuration [main] computes, whatever the command line. *)
Lemma main_config_returns Atoi Args :
  ∃ h w l players,
    main_config Atoi Args = Ret (h, w, l, players) ∧
    1 ≤ h ∧ 1 ≤ w ∧ 1 ≤ l ∧ 2 ≤ str_len players ∧
    (h = 3 ∨ h = 1 ∨ ∃ a, a ∈ Args ∧ Atoi a = Some h) ∧
    (w = 3 ∨ w = 1 ∨ ∃ a, a ∈ Args ∧ Atoi a = Some w) ∧
    (players = "XO"%string ∨ players ∈ Args).
Proof.
  unfold main_config.
  destruct (tryArgInt_returns Atoi Args 1 3) as (h & -> & Hh); [lia|].
  destruct (tryArgInt_returns Atoi Args 2 3) as (w & -> & Hw); [lia|].
  destruct (tryArgInt_returns Atoi Args 3 3) as (l & -> & Hl); [lia|].
  destruct (tryArg_returns Args 4 "XO") as (p & -> & Hp); [lia|].
  cbn [bind]. eexists _, _, _, _. split; [done|].
  split; [lia|]. split; [lia|]. split; [lia|]. split; [|split; [|split]].
  - destruct (str_len p <? 2) eqn:Hlen; [done|]. by apply Z.ltb_ge in Hlen.
  - destruct Hh as [->|(a & Ha & Hv)]; [by left|].
    destruct (Z.max_spec h 1) as [[_ ->]|[_ ->]]; [by right; left|].
    right. right. by exists a.
  - destruct Hw as [->|(a & Ha & Hv)]; [by left|].
    destruct (Z.max_spec w 1) as [[_ ->]|[_ ->]]; [by right; left|].
    right. right. by exists a.
  - destruct (str_len p <? 2); [by left|]. destruct Hp as [->|Hp]; auto.
Qed.

(** X14. Whatever the command line, [main] configures a height, a width
    and a win-line-length of at least 1 and at least two player symbols, so
    neither of the constructor's own two panics can be reached from
    [main]: the constructor returns a board when the row table and a row
    stay within 2^48 bytes, and otherwise panics in [make]. *)
Theorem main_constructs Atoi Args :
  ∃ h w l players,
    main_config Atoi Args = Ret (h, w, l, players) ∧
    1 ≤ h ∧ 1 ≤ w ∧ 1 ≤ l ∧ 2 ≤ str_len players ∧
    ((24 * h ≤ 2 ^ 48 ∧ 4 * w ≤ 2 ^ 48 ∧
      ∃ tb, NewTicTacToeBoard l w h = Ret tb) ∨
     ((2 ^ 48 < 24 * h ∨ 2 ^ 48 < 4 * w) ∧
      NewTicTacToeBoard l w h
      = Panic "runtime error: makeslice: len out of range")).
Proof.
  destruct (main_config_returns Atoi Args)
    as (h & w & l & players & Hcfg & Hh & Hw & Hl & Hp & _).
  exists h, w, l, players. split; [done|]. do 4 (split; [done|]).
  destruct (decide (2 ^ 48 < 24 * h ∨ 2 ^ 48 < 4 * w)) as [Hbig|Hfit].
  - right. split; [done|]. apply NewTicTacToeBoard_makeslice; (done || lia).
  - left. split; [lia|]. split; [lia|]. eexists.
    apply NewTicTacToeBoard_spec; lia.
Qed.

(** Two command lines: one with arguments below 1 and a non-numeric one,
    one with a width of 2^62. *)
Example main_constructs_runs :
  (let* cfg := main_config example_atoi ["ttt"; "-5"; "x"; "0"; "Z"] in
   let '(h, w, l, players) := cfg in
   let* tb := NewTicTacToeBoard l w h in Ret (cfg, board tb))
  = Ret ((1, 3, 1, "XO"%string), [[0; 0; 0]]) ∧
  tictactoe_main example_atoi example_sscanf
    ["ttt"; "1"; "4611686018427387904"; "3"] []
  = Panic "runtime error: makeslice: len out of range".
Proof. split; reflexivity. Qed.

(** X15. When [make] accepts the configured dimensions (a row of at most
    2^48 bytes, a row table of at most 2^48 bytes), the number of cells
    fits an [int] and no player symbol is the zero byte, [main] returns on
    every input: nothing in the session panics. The final board is valid,
    has the configured dimensions and win-line-length, counts its empty
    cells, and every mark on it is one of the players' symbols. *)
Theorem tictactoe_main_returns Atoi Sscanf Args stdin h w l players :
  main_config Atoi Args = Ret (h, w, l, players) →
  4 * w ≤ 2 ^ 48 → 24 * h ≤ 2 ^ 48 →
  w * h ≤ max_int → str_len players ≤ max_int →
  no_zero_byte players = true →
  ∃ tb' i' out',
    tictactoe_main Atoi Sscanf Args stdin = Ret (tb', i', out') ∧
    Valid tb' ∧ Counted tb' ∧
    width tb' = w ∧ height tb' = h ∧ winLineLength tb' = l ∧
    (∀ x y m, GetMark tb' x y = Ret m → m ≠ 0 →
              ∃ j, byte_at players j = Ret m).
Proof.
  intros Hcfg Hw4 Hh24 Hfit Hlen Hnz.
  destruct (main_config_returns Atoi Args)
    as (h' & w' & l' & p' & Hcfg' & Hh & Hw & Hl & Hp & _).
  rewrite Hcfg in Hcfg'. injection Hcfg' as <- <- <- <-.
  assert (Hl0 : l ≠ 0) by lia.
  pose proof (NewTicTacToeBoard_spec l w h Hl0 Hw Hh Hw4 Hh24) as Hnew.
  pose proof (NewTicTacToeBoard_Valid _ _ _ _ Hl0 Hw Hh Hw4 Hh24 Hfit Hnew)
    as Hv.
  destruct (NewTicTacToeBoard_Counted _ _ _ _ Hl0 Hw Hh Hw4 Hh24 Hfit Hnew)
    as [Hc _].
  set (tb := mkBoard l (replicate (Z.to_nat h) (replicate (Z.to_nat w) 0))
               (wrap64 (w * h)) 0 false) in *.
  assert (Hwd : width tb = w).
  { unfold width, len, tb. simpl. destruct (Z.to_nat h) eqn:E; [lia|]. simpl.
    rewrite length_replicate. lia. }
  assert (Hht : height tb = h).
  { unfold height, len, tb. simpl. rewrite length_replicate. lia. }
  assert (Hempty : ∀ x y, GetMark tb x y = Ret 0).
  { intros x y. rewrite GetMark_spec by done. f_equal. unfold tb. simpl.
    unfold mark_at. destruct ((0 <=? x) && (0 <=? y)); [|done].
    destruct (replicate (Z.to_nat h) _ !! Z.to_nat y) as [row|] eqn:Hrow;
      [|done].
    apply lookup_replicate in Hrow as [-> _].
    destruct (replicate (Z.to_nat w) 0 !! Z.to_nat x) as [m|] eqn:Hm; [|done].
    by apply lookup_replicate in Hm as [-> _]. }
  assert (Hplay : Playing w h players tb 0).
  { constructor; try done. lia. }
  destruct (game_loop_inv Sscanf w h players stdin tb 0
              [Banner h w l players] Hplay)
    as (tb' & i' & out' & Hrun & Hv' & Hc' & Hlater & Hmarks & Hend).
  exists tb', i', out'. split.
  { unfold tictactoe_main. rewrite Hcfg. cbn [bind]. rewrite Hnew.
    cbn [bind]. exact Hrun. }
  split; [done|].
  assert (Hdims : width tb' = width tb ∧ height tb' = height tb ∧
                  winLineLength tb' = winLineLength tb).
  { clear -Hv Hlater. induction Hlater as [|tb1 a b p tb2 Hl1 IH Hpm]; [done|].
    destruct IH as (Hw1 & Hh1 & Hl1').
    pose proof (Later_Valid _ _ Hv Hl1) as Hv1.
    destruct (PlaceMove_dims _ _ _ _ _ Hv1 Hpm) as (-> & -> & ->). done. }
  destruct Hdims as (-> & -> & ->).
  split; [done|]. split; [done|]. split; [done|]. split; [done|].
  intros x y m Hm Hne. destruct (Hmarks x y m Hm Hne) as [Hold|Hj]; [|done].
    rewrite Hempty in Hold. congruence.
Qed.

Lemma tictactoe_main_returns_witness :
  ∃ tb' i' out',
    tictactoe_main example_atoi example_sscanf ["ttt"; "2"; "2"; "2"]
      ["0 0"; "zz"; "0 0"; "7 7"; "1 0"; "1 1"; "0 1"] = Ret (tb', i', out') ∧
    Valid tb' ∧ width tb' = 2 ∧ height tb' = 2.
Proof.
  destruct (tictactoe_main_returns example_atoi example_sscanf
              ["ttt"; "2"; "2"; "2"]
              ["0 0"; "zz"; "0 0"; "7 7"; "1 0"; "1 1"; "0 1"] 2 2 2 "XO")
    as (tb' & i' & out' & Hrun & Hv & _ & Hw & Hh & _).
  - reflexivity.
  - lia.
  - lia.
  - rewrite max_int_val. lia.
  - unfold str_len. simpl. rewrite max_int_val. lia.
  - reflexivity.
  - exists tb', i', out'. split; [exact Hrun|]. split; [exact Hv|].
    split; [exact Hw|exact Hh].
Defined.

(** * Further properties of the duplicate-line counter *)

Lemma occurrences_Permutation l ts us :
  ts ≡ₚ us → occurrences l ts = occurrences l us.
Proof.
  induction 1 as [|t ts us _ IH|t u ts|ts us vs _ IH1 _ IH2]; simpl;
    [done|by rewrite IH|lia|congruence].
Qed.

Lemma count_loop_Permutation ts us (m : gmap string Z) :
  ts ≡ₚ us → count_loop ts m = count_loop us m.
Proof.
  intros Hp. apply map_eq. intros l.
  by rewrite !count_loop_lookup, (occurrences_Permutation l ts us Hp).
Qed.

Lemma lines_of_Permutation Open fs gs :
  fs ≡ₚ gs → lines_of Open fs ≡ₚ lines_of Open gs.
Proof.
  induction 1 as [|f fs gs _ IH|f g fs|fs gs hs _ IH1 _ IH2]; simpl.
  - done.
  - destruct (Open f); [done|]. by rewrite IH.
  - destruct (Open f), (Open g); try done.
    rewrite !app_assoc. f_equiv. apply Permutation_app_comm.
  - by etrans.
Qed.

(** X16. The counts do not depend on the order in which the files are
    named: permuting the arguments gives the same map. *)
Theorem dup_file_order Open stdin files files' :
  files ≡ₚ files' →
  (main_counts Open stdin files).1 = (main_counts Open stdin files').1.
Proof.
  intros Hp. rewrite !main_counts_spec. unfold input_lines.
  destruct files as [|f fs].
  - apply Permutation_nil_l in Hp. by subst.
  - destruct files' as [|g gs]; [by apply Permutation_nil_r in Hp|].
    apply count_loop_Permutation. by apply lines_of_Permutation.
Qed.

Lemma dup_file_order_witness :
  (main_counts example_open [] ["a.txt"; "missing.txt"; "b.txt"]).1
  = (main_counts example_open [] ["b.txt"; "a.txt"; "missing.txt"]).1.
Proof.
  apply dup_file_order.
  change ["b.txt"; "a.txt"; "missing.txt"]
    with (["b.txt"] ++ ["a.txt"; "missing.txt"]).
  change ["a.txt"; "missing.txt"; "b.txt"]
    with (["a.txt"; "missing.txt"] ++ ["b.txt"]).
  apply Permutation_app_comm.
Defined.

Lemma print_loop_lines_sublist entries :
  sublist (print_loop entries).*2 entries.*1.
Proof.
  induction entries as [|[l n] entries IH]; simpl; [done|].
  destruct (n >? 1); simpl; [by apply sublist_skip|by apply sublist_cons].
Qed.

(** X17. No line is printed twice, whatever the order in which the map is
    iterated. *)
Theorem dup_prints_once Open stdin files out errs :
  main Open stdin files out errs → NoDup out.*2.
Proof.
  intros (entries & Hrange & -> & _).
  eapply sublist_NoDup; [|apply print_loop_lines_sublist].
  unfold range_of in Hrange. rewrite Hrange. apply NoDup_fst_map_to_list.
Qed.

Lemma dup_prints_once_witness :
  NoDup (print_loop
           (map_to_list (main_counts example_open ["a"; "a"; "b"; "b"] []).1)).*2.
Proof.
  apply (dup_prints_once example_open ["a"; "a"; "b"; "b"] [] _
           (main_counts example_open ["a"; "a"; "b"; "b"] []).2).
  exists (map_to_list (main_counts example_open ["a"; "a"; "b"; "b"] []).1).
  split; [unfold range_of; reflexivity|]. split; reflexivity.
Defined.

Lemma open_loop_failures Open files : ∀ (m : gmap string Z) errs,
  (open_loop Open files m errs).2
  = errs ++ (open_error <$> failures Open files).
Proof.
  induction files as [|arg files IH]; intros m errs; simpl.
  - by rewrite app_nil_r.
  - destruct (Open arg) as [e|ls]; rewrite IH; [|done].
    by rewrite <- app_assoc.
Qed.

(** X18. Standard error holds exactly one line "dup: <error>" for each
    named file that does not open, in the order of the command line, and
    nothing else. *)
Theorem dup_error_messages Open stdin files :
  (main_counts Open stdin files).2
  = (λ e, "dup: " +:+ e +:+ String "010"%char EmptyString)
      <$> failures Open files.
Proof.
  unfold main_counts. destruct files as [|f fs]; [done|].
  by rewrite open_loop_failures.
Qed.

Lemma dup_error_messages_witness :
  (main_counts example_open [] ["missing.txt"; "a.txt"; "missing.txt"]).2
  = ["dup: open missing.txt: no such file or directory"
       +:+ String "010"%char EmptyString;
     "dup: open missing.txt: no such file or directory"
       +:+ String "010"%char EmptyString].
Proof.
  rewrite (dup_error_messages example_open []
             ["missing.txt"; "a.txt"; "missing.txt"]).
  reflexivity.
Defined.

(** X19. [countLines] adds to the counts it is given. For a file whose
    lines are all shorter than 65536 bytes and do not end in a carriage
    return, the count of a line grows by its number of occurrences in the
    file (as a 64-bit [int], a missing key counting as 0) and every other
    line keeps its entry or its absence; what follows a line of 65536 bytes
    or more adds nothing; and a nil file changes nothing. *)
Theorem countLines_adds ls (counts : gmap string Z) l :
  Forall plain ls →
  countLines (Some ls) counts !! l =
    (if decide (occurrences l ls = 0) then counts !! l
     else Some (wrap64 (default 0 (counts !! l) + occurrences l ls))) ∧
  (∀ long rest,
     65536 ≤ Z.of_nat (String.length long) →
     countLines (Some (ls ++ long :: rest)) counts
     = countLines (Some ls) counts) ∧
  countLines None counts = counts.
Proof.
  intros Hplain. unfold countLines, tokens. split; [|split; [|done]].
  - rewrite scan_plain by done. apply count_loop_lookup.
  - intros long rest Hlong. by rewrite scan_long, scan_plain.
Qed.

Lemma countLines_adds_witness :
  countLines (Some ["a"; "b"; "a"]) {["a" := 5]} !! "a" = Some 7 ∧
  countLines (Some (["a"; "b"; "a"] ++ long_line :: ["a"; "a"])) {["a" := 5]}
  = countLines (Some ["a"; "b"; "a"]) {["a" := 5]}.
Proof.
  destruct (countLines_adds ["a"; "b"; "a"] {["a" := 5]} "a")
    as (Hadd & Hstop & _).
  - concrete_plain.
  - split.
    + rewrite Hadd. reflexivity.
    + apply Hstop. vm_compute. discriminate.
Defined.

Lemma list_insert_same {A} (l : list A) i x :
  l !! i = Some x → <[i := x]> l = l.
Proof. apply list_insert_id. Qed.

(** X20. Placing the zero rune is accepted like any other mark but writes
    the empty value: the grid is unchanged, no winner is recorded, and the
    free-cell count still drops by 1 (so it no longer counts the empty
    cells). *)
Theorem PlaceMove_zero_rune tb x y :
  Valid tb → accepted tb x y →
  ∃ tb', PlaceMove tb x y 0 = Ret tb' ∧
    board tb' = board tb ∧ winner tb' = 0 ∧
    freeSpots tb' = freeSpots tb - 1 ∧
    (Counted tb → ¬ Counted tb').
Proof.
  intros Hv Hacc. destruct (PlaceMove_total tb x y 0 Hv) as [tb' Hpm].
  exists tb'. split; [done|].
  destruct (PlaceMove_cases _ _ _ _ _ Hv Hpm)
    as [[Hn _]|(_ & Hb & _ & Hf & Hw)]; [done|].
  pose proof (proj1 (accepted_spec _ _ _ Hv) Hacc) as (_ & Hin & Hm & _).
  assert (Hsame : grid_set (board tb) x y 0 = board tb).
  { apply inb_spec in Hin as [Hx Hy]. unfold grid_set, mark_at in *.
    rewrite (proj2 (Z.leb_le 0 x)), (proj2 (Z.leb_le 0 y)) in Hm by lia.
    simpl in Hm.
    destruct (board tb !! Z.to_nat y) as [row|] eqn:Hrow; [|done].
    rewrite (list_insert_same row) by done. by apply list_insert_same. }
  rewrite Hsame in Hb. split; [done|]. split; [by destruct Hw|].
  split; [done|]. unfold Counted. rewrite Hb, Hf. lia.
Qed.

Lemma PlaceMove_zero_rune_witness :
  ∃ tb', PlaceMove empty3 1 1 0 = Ret tb' ∧ board tb' = board empty3 ∧
         freeSpots tb' = 8.
Proof.
  destruct (PlaceMove_zero_rune empty3 1 1)
    as (tb' & Hpm & Hb & _ & Hf & _).
  - concrete_valid.
  - concrete_accepted.
  - exists tb'. split; [exact Hpm|]. split; [exact Hb|exact Hf].
Defined.
